(** * go-ceph, package cephfs: the cgo binding of libcephfs

    A shallow embedding of [cephfs/cephfs.go].  The Go side is modelled as
    a state-and-outcome monad over a world made of the Go store of
    [MountInfo] structs, the native (C) heap of malloc'ed blocks, the state
    of the native library, and the trace of boundary events.  libcephfs
    itself is a record of functions the development is parametric in.

    Machine integers are [Z] with the conversions written out for the
    LP64 targets cgo is used on: [C.int] is 32 bits signed, [C.size_t] is
    64 bits unsigned and Go's [int] is 64 bits signed. *)

From Stdlib Require Import ZArith List Lia.
From Stdlib Require Import Strings.Byte Strings.String.
From stdpp Require Import gmap list fin_maps.

Local Open Scope Z_scope.

(** ** Machine integers *)

Definition INT_MIN : Z := - 2 ^ 31.
Definition INT_MAX : Z := 2 ^ 31 - 1.
Definition SIZE_MAX : Z := 2 ^ 64 - 1.
Definition GO_INT_MIN : Z := - 2 ^ 63.
Definition GO_INT_MAX : Z := 2 ^ 63 - 1.

(** Membership of the three integer types. *)
Definition is_cint (z : Z) : Prop := INT_MIN <= z <= INT_MAX.
Definition is_size_t (z : Z) : Prop := 0 <= z <= SIZE_MAX.
Definition is_goint (z : Z) : Prop := GO_INT_MIN <= z <= GO_INT_MAX.

(** Go's integer conversions keep the low bits: [C.int(x)], [C.size_t(x)]
    and [int(x)] of an integer [x]. *)
Definition to_cint (z : Z) : Z := (z + 2 ^ 31) mod 2 ^ 32 - 2 ^ 31.
Definition to_size_t (z : Z) : Z := z mod 2 ^ 64.
Definition to_goint (z : Z) : Z := (z + 2 ^ 63) mod 2 ^ 64 - 2 ^ 63.

(** ** The error domain *)

(** [type CephFSError int] *)
Record CephFSError : Type := MkCephFSError { errno : Z }.

(** The Go [error] interface value returned by this package: [nil] or a
    [CephFSError]. *)
Definition error : Type := option CephFSError.

(** [func getError(e C.int) error] *)
Definition getError (e : Z) : error :=
  if e =? 0 then None else Some (MkCephFSError (to_goint e)).

(** ** Native memory *)

(** A native block is named by its base address; a C pointer is [NULL]
    ([None]) or the address of a block. *)
Definition addr : Type := positive.
Definition cptr : Type := option addr.
Definition NULL : cptr := None.

(** The native heap: the live malloc'ed blocks and their bytes. *)
Abbreviation cheap := (gmap positive (list byte)).

(** malloc returns an address that no live block has. *)
Definition fresh_addr (h : cheap) : addr :=
  Pos.succ (map_fold (fun k _ r => Pos.max k r) 1%positive h).

(** ** Go values *)

(** A Go [string] is its bytes; a [[]byte] is [nil] ([None]) or a slice
    with its bytes. *)
Definition gostring : Type := list byte.
Definition goslice : Type := option (list byte).

(** [string(b)] and [len(b)] of a [[]byte]; both treat [nil] as empty. *)
Definition string_of_slice (b : goslice) : gostring :=
  match b with Some l => l | None => [] end.
Definition len {A : Type} (l : list A) : Z := Z.of_nat (length l).
Definition len_slice (b : goslice) : Z := len (string_of_slice b).

(** [type MountInfo struct { mount *C.struct_ceph_mount_info }] *)
Record MountInfo : Type := MkMountInfo { mount : cptr }.

(** ** The boundary *)

(** The arguments of one [ceph_mds_command] call, as they cross the
    boundary: pointers and lengths. *)
Record mds_call : Type := MkMdsCall {
  c_cmount : cptr;
  c_spec : cptr;
  c_cmd : list cptr;
  c_cmdlen : Z;
  c_inbuf : cptr;
  c_inbuflen : Z
}.

(** What [ceph_mds_command] hands back: its [int] result and the four
    output parameters.  A buffer the callee malloc'ed is given by its
    bytes ([None]: the callee left the pointer [NULL]); the lengths are
    whatever the callee stored, independently of the buffers. *)
Record mds_reply : Type := MkMdsReply {
  r_ret : Z;
  r_outbuf : option (list byte);
  r_outbuflen : Z;
  r_outs : option (list byte);
  r_outslen : Z
}.

(** What an observer at the boundary sees. *)
Inductive event : Type :=
| EvCString (p : addr) (s : gostring)
| EvFree (p : addr)
| EvGoStringN (p : cptr) (n : Z)
| EvGoBytes (p : cptr) (n : Z)
| EvMount (cmount root : cptr)
| EvIsMounted (cmount : cptr)
| EvMdsCommand (c : mds_call) (r : mds_reply) (outbuf outs : cptr).

(** Go run-time panics this package can raise. *)
Inductive panic : Type :=
| IndexOutOfRange (i n : Z)
| NilDereference
| LengthOutOfRange.

(** How a Go call ends: it returns, it panics (deferred calls still run),
    or the process is killed by a fault in native code or in the cgo
    run time (nothing runs afterwards). *)
Inductive outcome (A : Type) : Type :=
| Ret (a : A)
| Panic (p : panic)
| Crash.
Arguments Ret {A} a.
Arguments Panic {A} p.
Arguments Crash {A}.

Section Binding.

(** The state of the native library and of the cluster behind it. *)
Variable NS : Type.

(** The functions of libcephfs this file calls.  They read the native heap
    and own their part of the state; the buffers [ceph_mds_command] hands
    back are blocks of its own, which [call_ceph_mds_command] places at
    fresh addresses. *)
Record libcephfs : Type := MkLibcephfs {
  ceph_mount : cptr -> cptr -> cheap -> NS -> Z * NS;
  ceph_is_mounted : cptr -> NS -> Z * NS;
  ceph_mds_command : mds_call -> cheap -> NS -> mds_reply * NS
}.

Variable L : libcephfs.

Record world : Type := MkWorld {
  gostore : gmap positive MountInfo;
  heap : cheap;
  native : NS;
  trace : list event
}.

Definition set_heap (h : cheap) (w : world) : world :=
  MkWorld (gostore w) h (native w) (trace w).
Definition set_native (s : NS) (w : world) : world :=
  MkWorld (gostore w) (heap w) s (trace w).
Definition emit (e : event) (w : world) : world :=
  MkWorld (gostore w) (heap w) (native w) (trace w ++ [e]).

(** *** The monad of Go code *)

Definition M (A : Type) : Type := world -> outcome A * world.

Definition ret {A : Type} (a : A) : M A := fun w => (Ret a, w).

Definition bind {A B : Type} (m : M A) (k : A -> M B) : M B :=
  fun w =>
    match m w with
    | (Ret a, w1) => k a w1
    | (Panic p, w1) => (Panic p, w1)
    | (Crash, w1) => (Crash, w1)
    end.

Definition raise {A : Type} (p : panic) : M A := fun w => (Panic p, w).
Definition crash {A : Type} : M A := fun w => (Crash, w).

(** [defer d; body]: [d] runs when [body] returns or panics, and a panic
    of [d] replaces the outcome. *)
Definition defer {A : Type} (d : M unit) (body : M A) : M A :=
  fun w =>
    match body w with
    | (Crash, w1) => (Crash, w1)
    | (o, w1) =>
        match d w1 with
        | (Ret _, w2) => (o, w2)
        | (Panic p, w2) => (Panic p, w2)
        | (Crash, w2) => (Crash, w2)
        end
    end.

Notation "x <- m ;; k" := (bind m (fun x => k))
  (at level 100, m at next level, right associativity).
Notation "m ;;; k" := (bind m (fun _ => k))
  (at level 100, right associativity).

Fixpoint mapM {A B : Type} (f : A -> M B) (l : list A) : M (list B) :=
  match l with
  | [] => ret []
  | a :: l' => b <- f a ;; bs <- mapM f l' ;; ret (b :: bs)
  end.

Fixpoint forM_ {A : Type} (f : A -> M unit) (l : list A) : M unit :=
  match l with
  | [] => ret tt
  | a :: l' => f a ;;; forM_ f l'
  end.

(** *** cgo helpers *)

(** [C.CString(s)]: malloc [len(s)+1] bytes (malloc is taken to succeed),
    copy all of [s], terminate with 0. *)
Definition CString (s : gostring) : M cptr :=
  fun w =>
    let p := fresh_addr (heap w) in
    (Ret (Some p), emit (EvCString p s) (set_heap (<[p := s ++ [x00]]> (heap w)) w)).

(** [C.free(unsafe.Pointer(p))]: no-op on [NULL]; freeing what is not a
    live block is a fault. *)
Definition free (p : cptr) : M unit :=
  fun w =>
    match p with
    | None => (Ret tt, w)
    | Some a =>
        match heap w !! a with
        | Some _ => (Ret tt, emit (EvFree a) (set_heap (delete a (heap w)) w))
        | None => (Crash, emit (EvFree a) w)
        end
    end.

(** Read [n] bytes ([0 < n]) from native memory at [p]: the copy inside
    [C.GoStringN] and [C.GoBytes], observed as [ev p n].  The copy runs
    in Go code: reading through a null pointer is a nil dereference, a
    run-time panic that deferred calls see; a dangling pointer or a read
    past the block is a fault. *)
Definition read_block (ev : cptr -> Z -> event) (p : cptr) (n : Z) : M (list byte) :=
  fun w =>
    match p with
    | None => (Panic NilDereference, emit (ev p n) w)
    | Some a =>
        match heap w !! a with
        | Some blk =>
            if n <=? len blk
            then (Ret (take (Z.to_nat n) blk), emit (ev p n) w)
            else (Crash, emit (ev p n) w)
        | None => (Crash, emit (ev p n) w)
        end
    end.

(** [C.GoStringN(p, n)]: the run time returns the empty string for
    length 0 without reading; a negative length makes its allocation
    fail, which is fatal. *)
Definition GoStringN (p : cptr) (n : Z) : M gostring :=
  if n =? 0 then ret []
  else if n <? 0 then crash
  else read_block EvGoStringN p n.

(** [C.GoBytes(unsafe.Pointer(p), n)]: an empty, non-nil slice for length
    0; a negative length panics. *)
Definition GoBytes (p : cptr) (n : Z) : M goslice :=
  if n =? 0 then ret (Some [])
  else if n <? 0 then raise LengthOutOfRange
  else b <- read_block EvGoBytes p n ;; ret (Some b).

(** *** Go-side accesses *)

(** [mount.mount] through the receiver [mount *MountInfo]; a receiver that
    names no struct is [nil]. *)
Definition load_mount (h : positive) : M cptr :=
  fun w =>
    match gostore w !! h with
    | Some m => (Ret (mount m), w)
    | None => (Panic NilDereference, w)
    end.

(** [&a[i]]: bounds-checked by Go. *)
Definition addr_of_index {A : Type} (a : list A) (i : Z) : M unit :=
  if (0 <=? i) && (i <? len a) then ret tt else raise (IndexOutOfRange i (len a)).

(** *** Calls into libcephfs *)

(** The callee's malloc of an output buffer. *)
Definition callee_alloc (b : option (list byte)) (h : cheap) : cptr * cheap :=
  match b with
  | None => (NULL, h)
  | Some blk => let p := fresh_addr h in (Some p, <[p := blk]> h)
  end.

Definition call_ceph_mount (cmount root : cptr) : M Z :=
  fun w =>
    let '(r, s) := ceph_mount L cmount root (heap w) (native w) in
    (Ret r, emit (EvMount cmount root) (set_native s w)).

Definition call_ceph_is_mounted (cmount : cptr) : M Z :=
  fun w =>
    let '(r, s) := ceph_is_mounted L cmount (native w) in
    (Ret r, emit (EvIsMounted cmount) (set_native s w)).

(** [outbuf], [outs] start as [nil] and [outbuflen], [outslen] as 0; the
    call fills them in. *)
Definition call_ceph_mds_command (c : mds_call) : M (Z * cptr * Z * cptr * Z) :=
  fun w =>
    let '(r, s) := ceph_mds_command L c (heap w) (native w) in
    let '(outbuf, h1) := callee_alloc (r_outbuf r) (heap w) in
    let '(outs, h2) := callee_alloc (r_outs r) h1 in
    (Ret (r_ret r, outbuf, r_outbuflen r, outs, r_outslen r),
     emit (EvMdsCommand c r outbuf outs) (set_native s (set_heap h2 w))).

(** *** The methods of [*MountInfo] *)

(** [func (mount *MountInfo) Mount() error] *)
Definition Mount (h : positive) : M error :=
  cm <- load_mount h ;;
  r <- call_ceph_mount cm NULL ;;
  ret (getError r).

(** [func (mount *MountInfo) IsMounted() bool] *)
Definition IsMounted (h : positive) : M bool :=
  cm <- load_mount h ;;
  r <- call_ceph_is_mounted cm ;;
  ret (r =? 1).

(** Lines 221-245 of [mdsCommand]: the call and the copy-out of its
    outputs, which run under the three deferred frees. *)
Definition mdsCommand_call (h : positive) (spec : cptr) (argv : list cptr)
    (argc : Z) (inbuf : cptr) (inbufLen : Z)
    : M (goslice * gostring * error) :=
  cm <- load_mount h ;;
  addr_of_index argv 0 ;;;
  out <- call_ceph_mds_command
           (MkMdsCall cm spec argv (to_size_t argc) inbuf (to_size_t inbufLen)) ;;
  let '(r, outbuf, outbuflen, outs, outslen) := out in
  info <- (if 0 <? outslen
           then s <- GoStringN outs (to_cint outslen) ;; free outs ;;; ret s
           else ret []) ;;
  buffer <- (if 0 <? outbuflen
             then b <- GoBytes outbuf (to_cint outbuflen) ;; free outbuf ;;; ret b
             else ret None) ;;
  if negb (r =? 0) then ret (None, info, getError r)
  else ret (buffer, info, None).

(** [func (mount *MountInfo) mdsCommand(mdsSpec string, args [][]byte,
    inputBuffer []byte) (buffer []byte, info string, err error)] *)
Definition mdsCommand (h : positive) (mdsSpec : gostring)
    (args : list (list byte)) (inputBuffer : goslice)
    : M (goslice * gostring * error) :=
  spec <- CString mdsSpec ;;
  defer (free spec) (
    let argc := len args in
    argv <- mapM CString args ;;
    defer (forM_ free argv) (
      inbuf <- CString (string_of_slice inputBuffer) ;;
      let inbufLen := len_slice inputBuffer in
      defer (free inbuf) (
        mdsCommand_call h spec argv argc inbuf inbufLen))).

(** [func (mount *MountInfo) MdsCommand(mdsSpec string, args [][]byte)] *)
Definition MdsCommand (h : positive) (mdsSpec : gostring) (args : list (list byte)) :=
  mdsCommand h mdsSpec args None.

(** [func (mount *MountInfo) MdsCommandWithInputBuffer(...)] *)
Definition MdsCommandWithInputBuffer (h : positive) (mdsSpec : gostring)
    (args : list (list byte)) (inputBuffer : goslice) :=
  mdsCommand h mdsSpec args inputBuffer.

End Binding.

Arguments MkWorld {NS} _ _ _ _.
Arguments gostore {NS} _.
Arguments heap {NS} _.
Arguments native {NS} _.
Arguments trace {NS} _.
Arguments ceph_mount {NS} _ _ _ _ _.
Arguments ceph_is_mounted {NS} _ _ _.
Arguments ceph_mds_command {NS} _ _ _ _.
Arguments set_heap {NS} _ _.
Arguments set_native {NS} _ _.
Arguments emit {NS} _ _.
Arguments ret {NS A} _ _.
Arguments bind {NS A B} _ _ _.
Arguments raise {NS A} _ _.
Arguments crash {NS A} _.
Arguments defer {NS A} _ _ _.
Arguments mapM {NS A B} _ _ _.
Arguments forM_ {NS A} _ _ _.
Arguments CString {NS} _ _.
Arguments free {NS} _ _.
Arguments read_block {NS} _ _ _ _.
Arguments GoStringN {NS} _ _ _.
Arguments GoBytes {NS} _ _ _.
Arguments load_mount {NS} _ _.
Arguments addr_of_index {NS A} _ _ _.
Arguments call_ceph_mount {NS} _ _ _ _.
Arguments call_ceph_is_mounted {NS} _ _ _.
Arguments call_ceph_mds_command {NS} _ _ _.
Arguments Mount {NS} _ _ _.
Arguments IsMounted {NS} _ _ _.
Arguments mdsCommand_call {NS} _ _ _ _ _ _ _ _.
Arguments mdsCommand {NS} _ _ _ _ _ _.
Arguments MdsCommand {NS} _ _ _ _ _.
Arguments MdsCommandWithInputBuffer {NS} _ _ _ _ _ _.

Notation "x <- m ;; k" := (bind m (fun x => k))
  (at level 100, m at next level, right associativity).
Notation "m ;;; k" := (bind m (fun _ => k))
  (at level 100, right associativity).

(** ** The rest of the binding *)

(** Go's [uint32], and [C.mode_t(x)]: on Linux [mode_t] is 32 bits
    unsigned. *)
Definition UINT32_MAX : Z := 2 ^ 32 - 1.
Definition is_uint32 (z : Z) : Prop := 0 <= z <= UINT32_MAX.
Definition to_mode_t (z : Z) : Z := z mod 2 ^ 32.

(** A [const char *] into memory the library owns: [NULL], or the bytes
    from that address to the end of the library's block. *)
Definition libmem : Type := option (list byte).

(** The bytes of a block before its first zero byte; [None] when the block
    holds no zero byte. *)
Fixpoint c_str (blk : list byte) : option (list byte) :=
  match blk with
  | [] => None
  | b :: rest =>
      if Byte.eqb b x00 then Some []
      else match c_str rest with Some s => Some (b :: s) | None => None end
  end.

(** A fresh Go address for a new [MountInfo]. *)
Definition fresh_loc (g : gmap positive MountInfo) : positive :=
  Pos.succ (map_fold (fun k _ r => Pos.max k r) 1%positive g).

Section Filesystem.

Variable NS : Type.

(** The other functions of libcephfs this file calls.  [ceph_create] and
    [ceph_create_from_rados] also give the value they leave in [*cmount];
    [ceph_getcwd] gives a string of the library's own. *)
Record libcephfs_fs : Type := MkLibcephfsFs {
  ceph_create : cptr -> cheap -> NS -> Z * cptr * NS;
  ceph_create_from_rados : cptr -> cheap -> NS -> Z * cptr * NS;
  ceph_conf_read_file : cptr -> cptr -> cheap -> NS -> Z * NS;
  ceph_unmount : cptr -> NS -> Z * NS;
  ceph_release : cptr -> NS -> Z * NS;
  ceph_sync_fs : cptr -> NS -> Z * NS;
  ceph_getcwd : cptr -> NS -> libmem * NS;
  ceph_chdir : cptr -> cptr -> cheap -> NS -> Z * NS;
  ceph_mkdir : cptr -> cptr -> Z -> cheap -> NS -> Z * NS;
  ceph_rmdir : cptr -> cptr -> cheap -> NS -> Z * NS;
  ceph_chmod : cptr -> cptr -> Z -> cheap -> NS -> Z * NS;
  ceph_chown : cptr -> cptr -> Z -> Z -> cheap -> NS -> Z * NS
}.

Variable K : libcephfs_fs.

Definition set_gostore (g : gmap positive MountInfo) (w : world NS) : world NS :=
  MkWorld g (heap w) (native w) (trace w).

(** A call that reads the native heap and returns an [int]. *)
Definition call_int (f : cheap -> NS -> Z * NS) : M NS Z :=
  fun w =>
    let '(r, s) := f (heap w) (native w) in
    (Ret r, set_native s w).

(** [C.GoString(p)] on a string of the library: the empty string for
    [NULL], else the bytes before the first zero byte; a block without a
    zero byte is read past its end, a fault. *)
Definition GoString (p : libmem) : M NS gostring :=
  match p with
  | None => ret []
  | Some blk =>
      match c_str blk with
      | Some s => ret s
      | None => crash
      end
  end.

(** [mount := &MountInfo{}] *)
Definition new_MountInfo : M NS positive :=
  fun w =>
    let l := fresh_loc (gostore w) in
    (Ret l, set_gostore (<[l := MkMountInfo NULL]> (gostore w)) w).

(** A call that gets [&mount.mount] and stores the context there. *)
Definition call_create (f : cheap -> NS -> Z * cptr * NS) (l : positive) : M NS Z :=
  fun w =>
    let '(r, cm, s) := f (heap w) (native w) in
    (Ret r, set_native s (set_gostore (<[l := MkMountInfo cm]> (gostore w)) w)).

(** [func createMount(id *C.char)], returning [*MountInfo] and [error]. *)
Definition createMount (id : cptr) : M NS (option positive * error) :=
  mount <- new_MountInfo ;;
  r <- call_create (ceph_create K id) mount ;;
  if negb (r =? 0) then ret (None, getError r)
  else ret (Some mount, None).

(** [func CreateMount()], returning [*MountInfo] and [error]. *)
Definition CreateMount : M NS (option positive * error) :=
  createMount NULL.

(** [func CreateMountWithId(id string)], returning [*MountInfo] and
    [error]. *)
Definition CreateMountWithId (id : gostring) : M NS (option positive * error) :=
  cid <- CString id ;;
  defer (free cid) (createMount cid).

(** [func CreateFromRados(conn *rados.Conn)], returning [*MountInfo] and
    [error], given the value of [conn.Cluster()]. *)
Definition CreateFromRados (cluster : cptr) : M NS (option positive * error) :=
  mount <- new_MountInfo ;;
  r <- call_create (ceph_create_from_rados K cluster) mount ;;
  if negb (r =? 0) then ret (None, getError r)
  else ret (Some mount, None).

(** [func (mount *MountInfo) ReadDefaultConfigFile() error] *)
Definition ReadDefaultConfigFile (h : positive) : M NS error :=
  cm <- load_mount h ;;
  r <- call_int (ceph_conf_read_file K cm NULL) ;;
  ret (getError r).

(** [func (mount *MountInfo) Unmount() error] *)
Definition Unmount (h : positive) : M NS error :=
  cm <- load_mount h ;;
  r <- call_int (fun _ => ceph_unmount K cm) ;;
  ret (getError r).

(** [func (mount *MountInfo) Release() error] *)
Definition Release (h : positive) : M NS error :=
  cm <- load_mount h ;;
  r <- call_int (fun _ => ceph_release K cm) ;;
  ret (getError r).

(** [func (mount *MountInfo) SyncFs() error] *)
Definition SyncFs (h : positive) : M NS error :=
  cm <- load_mount h ;;
  r <- call_int (fun _ => ceph_sync_fs K cm) ;;
  ret (getError r).

(** [func (mount *MountInfo) CurrentDir() string] *)
Definition CurrentDir (h : positive) : M NS gostring :=
  cm <- load_mount h ;;
  cDir <- (fun w => let '(p, s) := ceph_getcwd K cm (native w) in
                    (Ret p, set_native s w)) ;;
  GoString cDir.

(** [func (mount *MountInfo) ChangeDir(path string) error] *)
Definition ChangeDir (h : positive) (path : gostring) : M NS error :=
  cPath <- CString path ;;
  defer (free cPath) (
    cm <- load_mount h ;;
    r <- call_int (ceph_chdir K cm cPath) ;;
    ret (getError r)).

(** [func (mount *MountInfo) MakeDir(path string, mode uint32) error] *)
Definition MakeDir (h : positive) (path : gostring) (mode : Z) : M NS error :=
  cPath <- CString path ;;
  defer (free cPath) (
    cm <- load_mount h ;;
    r <- call_int (ceph_mkdir K cm cPath (to_mode_t mode)) ;;
    ret (getError r)).

(** [func (mount *MountInfo) RemoveDir(path string) error] *)
Definition RemoveDir (h : positive) (path : gostring) : M NS error :=
  cPath <- CString path ;;
  defer (free cPath) (
    cm <- load_mount h ;;
    r <- call_int (ceph_rmdir K cm cPath) ;;
    ret (getError r)).

(** [func (mount *MountInfo) Chmod(path string, mode uint32) error] *)
Definition Chmod (h : positive) (path : gostring) (mode : Z) : M NS error :=
  cPath <- CString path ;;
  defer (free cPath) (
    cm <- load_mount h ;;
    r <- call_int (ceph_chmod K cm cPath (to_mode_t mode)) ;;
    ret (getError r)).

(** [func (mount *MountInfo) Chown(path string, user uint32, group uint32)
    error] *)
Definition Chown (h : positive) (path : gostring) (user group : Z) : M NS error :=
  cPath <- CString path ;;
  defer (free cPath) (
    cm <- load_mount h ;;
    r <- call_int (ceph_chown K cm cPath (to_cint user) (to_cint group)) ;;
    ret (getError r)).

End Filesystem.

Arguments MkLibcephfsFs {NS} _ _ _ _ _ _ _ _ _ _ _ _.
Arguments ceph_create {NS} _ _ _ _.
Arguments ceph_create_from_rados {NS} _ _ _ _.
Arguments ceph_conf_read_file {NS} _ _ _ _ _.
Arguments ceph_unmount {NS} _ _ _.
Arguments ceph_release {NS} _ _ _.
Arguments ceph_sync_fs {NS} _ _ _.
Arguments ceph_getcwd {NS} _ _ _.
Arguments ceph_chdir {NS} _ _ _ _ _.
Arguments ceph_mkdir {NS} _ _ _ _ _ _.
Arguments ceph_rmdir {NS} _ _ _ _ _.
Arguments ceph_chmod {NS} _ _ _ _ _ _.
Arguments ceph_chown {NS} _ _ _ _ _ _ _.
Arguments set_gostore {NS} _ _.
Arguments call_int {NS} _ _.
Arguments GoString {NS} _ _.
Arguments new_MountInfo {NS} _.
Arguments call_create {NS} _ _ _.
Arguments createMount {NS} _ _ _.
Arguments CreateMount {NS} _ _.
Arguments CreateMountWithId {NS} _ _ _.
Arguments CreateFromRados {NS} _ _ _.
Arguments ReadDefaultConfigFile {NS} _ _ _.
Arguments Unmount {NS} _ _ _.
Arguments Release {NS} _ _ _.
Arguments SyncFs {NS} _ _ _.
Arguments CurrentDir {NS} _ _ _.
Arguments ChangeDir {NS} _ _ _ _.
Arguments MakeDir {NS} _ _ _ _ _.
Arguments RemoveDir {NS} _ _ _ _.
Arguments Chmod {NS} _ _ _ _ _.
Arguments Chown {NS} _ _ _ _ _ _.

(** ** Reading a trace *)

(** The events a run from [w] to [w'] added. *)
Definition new_events {NS : Type} (w w' : world NS) : list event :=
  drop (length (trace w)) (trace w').

(** The transient allocations made by the Go side, in order, with the
    string each one marshals. *)
Definition allocations (evs : list event) : list (addr * gostring) :=
  omap (fun e => match e with EvCString p s => Some (p, s) | _ => None end) evs.

(** The addresses passed to [C.free], in order. *)
Definition frees (evs : list event) : list addr :=
  omap (fun e => match e with EvFree p => Some p | _ => None end) evs.


(** Events that are neither a call into libcephfs nor an allocation. *)
Definition quiet (e : event) : Prop :=
  match e with
  | EvFree _ | EvGoStringN _ _ | EvGoBytes _ _ => True
  | _ => False
  end.

(** The events of the copy-out of a reply whose output-buffer length is
    [outbuflen]: reads of the status string and frees, and reads of the
    output buffer only when [outbuflen] is positive. *)
Definition copy_event (outbuflen : Z) (e : event) : Prop :=
  match e with
  | EvFree _ | EvGoStringN _ _ => True
  | EvGoBytes _ _ => 0 < outbuflen
  | _ => False
  end.

(** A computation that, from any world, only adds events satisfying [P]
    to the trace. *)
Definition only {NS A : Type} (P : event -> Prop) (m : M NS A) : Prop :=
  forall w, exists evs, trace (m w).2 = trace w ++ evs /\ Forall P evs.

(** ** The contract of [ceph_mds_command]'s outputs *)

(** A (pointer, length) output pair describes a buffer: a positive length
    comes with a block of at least that many bytes. *)
Definition holds (b : option (list byte)) (n : Z) : Prop :=
  0 <= n /\ (0 < n -> match b with Some blk => n <= len blk | None => False end).

Definition reply_ok (r : mds_reply) : Prop :=
  is_cint (r_ret r) /\
  holds (r_outbuf r) (r_outbuflen r) /\
  holds (r_outs r) (r_outslen r).

(** Both reported lengths are representable as a [C.int]. *)
Definition reply_fits (r : mds_reply) : Prop :=
  r_outbuflen r <= INT_MAX /\ r_outslen r <= INT_MAX.

(** The first [n] bytes of an output buffer. *)
Definition copied (b : option (list byte)) (n : Z) : list byte :=
  match b with Some blk => take (Z.to_nat n) blk | None => [] end.

(** The [info] and [buffer] variables after the guarded copy-out of a
    buffer with content [b] and reported length [n]. *)
Definition fetched (b : option (list byte)) (n : Z) : gostring :=
  if 0 <? n then copied b (to_cint n) else [].
Definition payload (b : option (list byte)) (n : Z) : goslice :=
  if 0 <? n then Some (copied b (to_cint n)) else None.

(** The copy-out of a buffer with content [b] and reported length [n]
    goes through. *)
Definition fetchable (b : option (list byte)) (n : Z) : Prop :=
  0 < n -> 0 <= to_cint n /\ exists blk, b = Some blk /\ to_cint n <= len blk.

(** ** Closed forms of the marshaling steps *)

(** The addresses and the heap that successive [C.CString] calls yield. *)
Fixpoint alloc_strings (ss : list gostring) (h : cheap) : list addr * cheap :=
  match ss with
  | [] => ([], h)
  | s :: ss' =>
      let p := fresh_addr h in
      let '(ps, h') := alloc_strings ss' (<[p := s ++ [x00]]> h) in
      (p :: ps, h')
  end.

(** The native heap and the pointers when [ceph_mds_command] is entered
    from a heap [h0]. *)
Definition spec_addr (h0 : cheap) : addr := fresh_addr h0.
Definition heap1 (mdsSpec : gostring) (h0 : cheap) : cheap :=
  <[spec_addr h0 := mdsSpec ++ [x00]]> h0.
Definition arg_addrs (mdsSpec : gostring) (args : list gostring) (h0 : cheap) : list addr :=
  (alloc_strings args (heap1 mdsSpec h0)).1.
Definition heap2 (mdsSpec : gostring) (args : list gostring) (h0 : cheap) : cheap :=
  (alloc_strings args (heap1 mdsSpec h0)).2.
Definition in_addr (mdsSpec : gostring) (args : list gostring) (h0 : cheap) : addr :=
  fresh_addr (heap2 mdsSpec args h0).
Definition heap3 (mdsSpec : gostring) (args : list gostring) (input : goslice)
    (h0 : cheap) : cheap :=
  <[in_addr mdsSpec args h0 := string_of_slice input ++ [x00]]> (heap2 mdsSpec args h0).
Definition call_at (m : MountInfo) (mdsSpec : gostring) (args : list gostring)
    (input : goslice) (h0 : cheap) : mds_call :=
  MkMdsCall (mount m) (Some (spec_addr h0)) (Some <$> arg_addrs mdsSpec args h0)
    (to_size_t (len args)) (Some (in_addr mdsSpec args h0))
    (to_size_t (len_slice input)).

(** The events of the marshaling. *)
Definition marshal_events (mdsSpec : gostring) (args : list gostring)
    (input : goslice) (h0 : cheap) : list event :=
  EvCString (spec_addr h0) mdsSpec
  :: zip_with EvCString (arg_addrs mdsSpec args h0) args
  ++ [EvCString (in_addr mdsSpec args h0) (string_of_slice input)].

(** What the guarded copy-and-free of one output buffer does to the trace
    and to the heap. *)
Definition fetch_events (ev : cptr -> Z -> event) (p : cptr) (n : Z) : list event :=
  if 0 <? n
  then (if to_cint n =? 0 then [] else [ev p (to_cint n)])
       ++ match p with Some a => [EvFree a] | None => [] end
  else [].

Definition fetch_heap (p : cptr) (n : Z) (h : cheap) : cheap :=
  if 0 <? n then match p with Some a => delete a h | None => h end else h.

(** The output pointers and the heap when [ceph_mds_command] returns [r]
    into a heap [h]. *)
Definition outbuf_ptr (r : mds_reply) (h : cheap) : cptr :=
  (callee_alloc (r_outbuf r) h).1.
Definition outs_ptr (r : mds_reply) (h : cheap) : cptr :=
  (callee_alloc (r_outs r) (callee_alloc (r_outbuf r) h).2).1.
Definition heap_on_return (r : mds_reply) (h : cheap) : cheap :=
  (callee_alloc (r_outs r) (callee_alloc (r_outbuf r) h).2).2.

(** The events, the heap and the result of the copy-out of a reply. *)
Definition copy_events (r : mds_reply) (h : cheap) : list event :=
  fetch_events EvGoStringN (outs_ptr r h) (r_outslen r)
  ++ fetch_events EvGoBytes (outbuf_ptr r h) (r_outbuflen r).
Definition heap_on_copy (r : mds_reply) (h : cheap) : cheap :=
  fetch_heap (outbuf_ptr r h) (r_outbuflen r)
    (fetch_heap (outs_ptr r h) (r_outslen r) (heap_on_return r h)).
Definition result_of (r : mds_reply) : goslice * gostring * error :=
  if negb (r_ret r =? 0)
  then (None, fetched (r_outs r) (r_outslen r), getError (r_ret r))
  else (payload (r_outbuf r) (r_outbuflen r), fetched (r_outs r) (r_outslen r), None).

(** The events of a run that reaches the call and copies out its reply. *)
Definition run_events (m : MountInfo) (mdsSpec : gostring) (args : list gostring)
    (input : goslice) (h0 : cheap) (r : mds_reply) : list event :=
  marshal_events mdsSpec args input h0
  ++ EvMdsCommand (call_at m mdsSpec args input h0) r
       (outbuf_ptr r (heap3 mdsSpec args input h0))
       (outs_ptr r (heap3 mdsSpec args input h0))
     :: copy_events r (heap3 mdsSpec args input h0)
  ++ EvFree (in_addr mdsSpec args h0)
     :: (EvFree <$> arg_addrs mdsSpec args h0)
  ++ [EvFree (spec_addr h0)].

(** The reply the run received, read off the library. *)
Definition reply_at {NS : Type} (L : libcephfs NS) (m : MountInfo)
    (mdsSpec : gostring) (args : list gostring) (input : goslice) (w : world NS)
    : mds_reply :=
  (ceph_mds_command L (call_at m mdsSpec args input (heap w))
     (heap3 mdsSpec args input (heap w)) (native w)).1.

(** ** A test double of the boundary *)

(** A libcephfs that answers every call with fixed values. *)
Definition fake_lib (mount_ret mounted_ret : Z) (reply : mds_reply) : libcephfs unit :=
  MkLibcephfs unit
    (fun _ _ _ s => (mount_ret, s))
    (fun _ s => (mounted_ret, s))
    (fun _ _ s => (reply, s)).

(** A world with one mount handle, at Go address 1, and nothing else. *)
Definition fake_world : world unit :=
  MkWorld {[ 1%positive := MkMountInfo (Some 7%positive) ]} ∅ tt [].

Definition bytes (s : string) : list byte := list_byte_of_string s.

(** Replies of the test double: a success with an output payload and no
    status, and a failure ([-EINVAL]) with a status and no payload. *)
Definition ok_reply : mds_reply :=
  MkMdsReply 0 (Some (bytes "state=up")) 8 None 0.
Definition err_reply : mds_reply :=
  MkMdsReply (-22) None 0 (Some (bytes "bad")) 3.

(** A reply whose status string is 4 GiB and 3 bytes long. *)
Definition big_len : Z := 2 ^ 32 + 3.
Definition big_status : list byte := repeat "x"%byte (Z.to_nat big_len).
Definition big_reply : mds_reply :=
  MkMdsReply 0 None 0 (Some big_status) big_len.

(** The call event of the failing run of the test double. *)
Definition err_call : mds_call :=
  MkMdsCall (Some 7%positive) (Some 2%positive) [Some 3%positive; Some 4%positive] 2
    (Some 5%positive) 1.

(** An input payload with a zero byte in the middle. *)
Definition nul_payload : goslice := Some [x61; x00; x62].

(** ** The path operations as one family *)

(** Which path operation, with its arguments other than the path. *)
Inductive path_op : Type :=
| OpChangeDir
| OpMakeDir (mode : Z)
| OpRemoveDir
| OpChmod (mode : Z)
| OpChown (user group : Z).

Definition run_path_op {NS : Type} (K : libcephfs_fs NS) (h : positive)
    (path : gostring) (op : path_op) : M NS error :=
  match op with
  | OpChangeDir => ChangeDir K h path
  | OpMakeDir mode => MakeDir K h path mode
  | OpRemoveDir => RemoveDir K h path
  | OpChmod mode => Chmod K h path mode
  | OpChown user group => Chown K h path user group
  end.

(** The library function behind each path operation, on the values its
    other arguments are converted to. *)
Definition path_call {NS : Type} (K : libcephfs_fs NS) (op : path_op)
    (cm cPath : cptr) : cheap -> NS -> Z * NS :=
  match op with
  | OpChangeDir => ceph_chdir K cm cPath
  | OpMakeDir mode => ceph_mkdir K cm cPath (to_mode_t mode)
  | OpRemoveDir => ceph_rmdir K cm cPath
  | OpChmod mode => ceph_chmod K cm cPath (to_mode_t mode)
  | OpChown user group => ceph_chown K cm cPath (to_cint user) (to_cint group)
  end.

(** The events of a call that marshals one string: the copy and its free. *)
Definition one_string_events (h0 : cheap) (s : gostring) : list event :=
  [EvCString (fresh_addr h0) s; EvFree (fresh_addr h0)].

(** The heap a callee sees while the string is marshaled. *)
Definition heap_with (h0 : cheap) (s : gostring) : cheap :=
  <[fresh_addr h0 := s ++ [x00]]> h0.

(** The C string a callee reads at [p]: the bytes before the first zero
    byte of the block there. *)
Definition c_str_at (hp : cheap) (p : cptr) : option (list byte) :=
  match p with
  | None => None
  | Some a => match hp !! a with Some blk => c_str blk | None => None end
  end.

(** The bytes of a Go string before its first zero byte, all of it when it
    has none. *)
Fixpoint c_prefix (s : gostring) : gostring :=
  match s with
  | [] => []
  | b :: rest => if Byte.eqb b x00 then [] else b :: c_prefix rest
  end.

(** A library answers a path operation from the C string at the path
    pointer, not from anything else in the heap. *)
Definition reads_c_string {NS : Type} (K : libcephfs_fs NS) (op : path_op) : Prop :=
  forall cm p p' hp hp' s,
    c_str_at hp p = c_str_at hp' p' ->
    path_call K op cm p hp s = path_call K op cm p' hp' s.

(** [s] is what a reader of C strings sees of the Go string [path]: all
    of it when it holds no zero byte, else its part before the first. *)
Definition cut_at_zero (path s : gostring) : Prop :=
  (x00 ∉ s) /\ (path = s \/ exists rest, path = s ++ x00 :: rest).

(** A [uint32] read as a 32-bit signed integer. *)
Definition signed32 (z : Z) : Z := if z <=? INT_MAX then z else z - 2 ^ 32.

(** ** The ways to create a handle *)

Inductive creator : Type :=
| ByCreate (id : cptr)
| ByRados (cluster : cptr).

Definition run_create {NS : Type} (K : libcephfs_fs NS) (c : creator)
    : M NS (option positive * error) :=
  match c with
  | ByCreate id => createMount K id
  | ByRados cluster => CreateFromRados K cluster
  end.

Definition create_call {NS : Type} (K : libcephfs_fs NS) (c : creator)
    : cheap -> NS -> Z * cptr * NS :=
  match c with
  | ByCreate id => ceph_create K id
  | ByRados cluster => ceph_create_from_rados K cluster
  end.

(** ** The lifecycle operations as one family *)

Inductive life_op : Type :=
| OpReadDefaultConfigFile
| OpUnmount
| OpRelease
| OpSyncFs.

Definition run_life_op {NS : Type} (K : libcephfs_fs NS) (h : positive)
    (op : life_op) : M NS error :=
  match op with
  | OpReadDefaultConfigFile => ReadDefaultConfigFile K h
  | OpUnmount => Unmount K h
  | OpRelease => Release K h
  | OpSyncFs => SyncFs K h
  end.

Definition life_call {NS : Type} (K : libcephfs_fs NS) (op : life_op)
    (cm : cptr) : cheap -> NS -> Z * NS :=
  match op with
  | OpReadDefaultConfigFile => ceph_conf_read_file K cm NULL
  | OpUnmount => fun _ => ceph_unmount K cm
  | OpRelease => fun _ => ceph_release K cm
  | OpSyncFs => fun _ => ceph_sync_fs K cm
  end.

(** ** A test double of the rest of the boundary *)

(** A library that answers every call with [r], creates the context [cm],
    reports the directory [cwd]; its path functions answer with minus the
    length of the C string they are given. *)
Definition path_answer (hp : cheap) (p : cptr) : Z :=
  match c_str_at hp p with Some s => - len s | None => -14 end.

Definition fake_fs (r : Z) (cm : cptr) (cwd : libmem) : libcephfs_fs unit :=
  MkLibcephfsFs
    (fun _ _ s => (r, cm, s))
    (fun _ _ s => (r, cm, s))
    (fun _ _ _ s => (r, s))
    (fun _ s => (r, s))
    (fun _ s => (r, s))
    (fun _ s => (r, s))
    (fun _ s => (cwd, s))
    (fun _ p hp s => (path_answer hp p, s))
    (fun _ p _ hp s => (path_answer hp p, s))
    (fun _ p hp s => (path_answer hp p, s))
    (fun _ p _ hp s => (path_answer hp p, s))
    (fun _ p _ _ hp s => (path_answer hp p, s)).

(** A library that records the ids [ceph_chown] was given. *)
Definition chown_log_fs : libcephfs_fs (list (Z * Z)) :=
  MkLibcephfsFs
    (fun _ _ s => (0, NULL, s))
    (fun _ _ s => (0, NULL, s))
    (fun _ _ _ s => (0, s))
    (fun _ s => (0, s))
    (fun _ s => (0, s))
    (fun _ s => (0, s))
    (fun _ s => (None, s))
    (fun _ _ _ s => (0, s))
    (fun _ _ _ _ s => (0, s))
    (fun _ _ _ s => (0, s))
    (fun _ _ _ _ s => (0, s))
    (fun _ _ u g _ s => (0, s ++ [(u, g)])).

(** ** More test data *)

(** A success whose output buffer was allocated but is reported empty. *)
Definition leaky_reply : mds_reply :=
  MkMdsReply 0 (Some (bytes "left")) 0 None 0.

(** The call event of the runs of the test double with one argument. *)
Definition status_call : mds_call :=
  call_at (MkMountInfo (Some 7%positive)) (bytes "mds.0") [bytes "status"] None ∅.

(** The world of [fake_world] for the library that records [ceph_chown]. *)
Definition chown_world : world (list (Z * Z)) :=
  MkWorld {[ 1%positive := MkMountInfo (Some 7%positive) ]} ∅ [] [].

(** A directory as the library hands it out: terminated, with bytes of
    something else after the zero. *)
Definition cwd_block : list byte := bytes "/home" ++ [x00; x78].


(** A block of [2^31] bytes: the shortest whose length is not a C int. *)
Definition half_len : Z := 2 ^ 31.
Definition half_block : list byte := repeat "x"%byte (Z.to_nat half_len).

(** A success with a status string of that length, and a failure
    ([-EINVAL]) with an output buffer of that length. *)
Definition killed_reply : mds_reply :=
  MkMdsReply 0 None 0 (Some half_block) half_len.
Definition refused_reply : mds_reply :=
  MkMdsReply (-22) (Some half_block) half_len None 0.

(** * Facts *)

(** ** Integer conversions *)

Lemma to_cint_id (z : Z) : is_cint z -> to_cint z = z.
Proof.
  unfold is_cint, to_cint, INT_MIN, INT_MAX. intros H.
  rewrite Z.mod_small; lia.
Qed.

Lemma to_size_t_id (z : Z) : is_size_t z -> to_size_t z = z.
Proof.
  unfold is_size_t, to_size_t, SIZE_MAX. intros H.
  rewrite Z.mod_small; lia.
Qed.

Lemma to_goint_id (z : Z) : is_goint z -> to_goint z = z.
Proof.
  unfold is_goint, to_goint, GO_INT_MIN, GO_INT_MAX. intros H.
  rewrite Z.mod_small; lia.
Qed.

Lemma cint_is_goint (z : Z) : is_cint z -> is_goint z.
Proof.
  unfold is_cint, is_goint, INT_MIN, INT_MAX, GO_INT_MIN, GO_INT_MAX. lia.
Qed.

(** ** The error domain *)

Lemma getError_zero : getError 0 = None.
Proof. reflexivity. Qed.

Lemma getError_nonzero (e : Z) :
  is_cint e -> e <> 0 -> getError e = Some (MkCephFSError e).
Proof.
  intros He Hne. unfold getError.
  destruct (Z.eqb_spec e 0) as [->|_]; [congruence|].
  by rewrite to_goint_id by (by apply cint_is_goint).
Qed.

(** C1. For every [C.int] result code [e], [getError] returns no error when
    [e] is zero, and when [e] is not zero it returns a [CephFSError] whose
    numeric code is [e]. *)
Theorem getError_spec (e : Z) :
  is_cint e ->
  (e = 0 -> getError e = None) /\
  (e <> 0 -> exists err, getError e = Some err /\ errno err = e).
Proof.
  intros He. split.
  - intros ->. apply getError_zero.
  - intros Hne. exists (MkCephFSError e). split; [|reflexivity].
    by apply getError_nonzero.
Qed.

Lemma getError_spec_witness :
  is_cint (-2) /\
  ((-2 = 0 -> getError (-2) = None) /\
   (-2 <> 0 -> exists err, getError (-2) = Some err /\ errno err = -2)).
Proof.
  assert (H : is_cint (-2)) by (unfold is_cint, INT_MIN, INT_MAX; lia).
  split; [exact H | exact (getError_spec (-2) H)].
Defined.

(** ** The native heap *)

Lemma fresh_addr_above (h : cheap) (p : positive) (b : list byte) :
  h !! p = Some b -> (p < fresh_addr h)%positive.
Proof.
  unfold fresh_addr.
  revert p b.
  refine (map_fold_weak_ind
            (fun r m => forall p b, m !! p = Some b -> (p < Pos.succ r)%positive)
            (fun k _ r => Pos.max k r) 1%positive _ _ h).
  - intros p b Hp. rewrite lookup_empty in Hp. discriminate.
  - intros k x m r Hk IH p b Hp.
    destruct (decide (k = p)) as [->|Hne].
    + lia.
    + rewrite lookup_insert_ne in Hp by done.
      specialize (IH p b Hp). lia.
Qed.

Lemma fresh_addr_fresh (h : cheap) : h !! fresh_addr h = None.
Proof.
  destruct (h !! fresh_addr h) as [b|] eqn:E; [|reflexivity].
  apply fresh_addr_above in E. lia.
Qed.

Lemma fresh_addr_ne (h : cheap) (q : addr) (b : list byte) :
  h !! q = Some b -> q <> fresh_addr h.
Proof. intros Hq%fresh_addr_above. lia. Qed.

Lemma alloc_strings_length (ss : list gostring) (h : cheap) :
  length (alloc_strings ss h).1 = length ss.
Proof.
  revert h. induction ss as [|s ss IH]; intros h; simpl; [done|].
  specialize (IH (<[fresh_addr h := s ++ [x00]]> h)).
  destruct (alloc_strings ss _) as [ps h']. simpl in *. by rewrite IH.
Qed.

(** Blocks that were live stay live, with their bytes. *)
Lemma alloc_strings_keeps (ss : list gostring) (h : cheap) (q : addr) (b : list byte) :
  h !! q = Some b -> (alloc_strings ss h).2 !! q = Some b.
Proof.
  revert h. induction ss as [|s ss IH]; intros h Hq; simpl; [done|].
  specialize (IH (<[fresh_addr h := s ++ [x00]]> h)).
  destruct (alloc_strings ss _) as [ps h']. simpl in *.
  apply IH. rewrite lookup_insert_ne; [done|].
  intros Heq. by apply (fresh_addr_ne h q b).
Qed.

(** The new addresses were free before and are live afterwards. *)
Lemma alloc_strings_new (ss : list gostring) (h : cheap) (q : addr) :
  q ∈ (alloc_strings ss h).1 ->
  h !! q = None /\ is_Some ((alloc_strings ss h).2 !! q).
Proof.
  revert h. induction ss as [|s ss IH]; intros h; simpl.
  - intros Hq. by apply elem_of_nil in Hq.
  - pose proof (alloc_strings_keeps ss (<[fresh_addr h := s ++ [x00]]> h)) as Hk.
    specialize (IH (<[fresh_addr h := s ++ [x00]]> h)).
    destruct (alloc_strings ss _) as [ps h']. simpl in *.
    intros [->|Hq]%elem_of_cons.
    + split; [apply fresh_addr_fresh|].
      eexists. apply Hk. apply lookup_insert_eq.
    + destruct (IH Hq) as [Hn Hs]. split; [|done].
      destruct (decide (fresh_addr h = q)) as [<-|Hne].
      * apply fresh_addr_fresh.
      * by rewrite lookup_insert_ne in Hn.
Qed.

Lemma alloc_strings_NoDup (ss : list gostring) (h : cheap) :
  NoDup (alloc_strings ss h).1.
Proof.
  revert h. induction ss as [|s ss IH]; intros h; simpl; [constructor|].
  pose proof (alloc_strings_new ss (<[fresh_addr h := s ++ [x00]]> h)) as Hn.
  specialize (IH (<[fresh_addr h := s ++ [x00]]> h)).
  destruct (alloc_strings ss _) as [ps h']. simpl in *.
  constructor; [|done].
  intros Hin. destruct (Hn _ Hin) as [Hnone _].
  by rewrite lookup_insert_eq in Hnone.
Qed.

Lemma callee_alloc_keeps (b : option (list byte)) (h : cheap) (q : addr) (x : list byte) :
  h !! q = Some x -> (callee_alloc b h).2 !! q = Some x.
Proof.
  intros Hq. destruct b as [blk|]; simpl; [|done].
  rewrite lookup_insert_ne; [done|].
  intros Heq. by apply (fresh_addr_ne h q x).
Qed.

Lemma callee_alloc_some (b : option (list byte)) (h : cheap) (a : addr) :
  (callee_alloc b h).1 = Some a ->
  exists blk, b = Some blk /\ h !! a = None /\ (callee_alloc b h).2 !! a = Some blk.
Proof.
  destruct b as [blk|]; simpl; [|done].
  intros [= <-]. exists blk.
  split; [done|]. split; [apply fresh_addr_fresh | apply lookup_insert_eq].
Qed.

Lemma callee_alloc_null (b : option (list byte)) (h : cheap) :
  (callee_alloc b h).1 = None -> b = None.
Proof. by destruct b. Qed.

Lemma fetch_heap_keeps (p : cptr) (n : Z) (h : cheap) (q : addr) :
  p <> Some q -> fetch_heap p n h !! q = h !! q.
Proof.
  intros Hne. unfold fetch_heap.
  destruct (0 <? n); [|done]. destruct p as [a|]; [|done].
  apply lookup_delete_ne. congruence.
Qed.

(** ** Runs of the Go side *)

Section Runs.

Context {NS : Type} (L : libcephfs NS).

Lemma world_eta (w : world NS) :
  MkWorld (gostore w) (heap w) (native w) (trace w) = w.
Proof. by destruct w. Qed.

Lemma new_events_app (w w' : world NS) (evs : list event) :
  trace w' = trace w ++ evs -> new_events w w' = evs.
Proof. intros H. unfold new_events. rewrite H. by rewrite drop_app_length. Qed.

(** [C.CString] in a loop. *)
Lemma mapM_CString_run (ss : list gostring) (w : world NS) :
  mapM CString ss w =
  (Ret (Some <$> (alloc_strings ss (heap w)).1),
   MkWorld (gostore w) (alloc_strings ss (heap w)).2 (native w)
     (trace w ++ zip_with EvCString (alloc_strings ss (heap w)).1 ss)).
Proof.
  revert w. induction ss as [|s ss IH]; intros w.
  - simpl. unfold ret. rewrite app_nil_r. by rewrite world_eta.
  - simpl. unfold bind at 1. unfold CString at 1. unfold bind at 1.
    rewrite IH. simpl.
    destruct (alloc_strings ss _) as [ps h']. simpl.
    unfold ret. by rewrite <- app_assoc.
Qed.

(** Freeing distinct live blocks goes through and touches nothing else. *)
Lemma forM_free_run (ps : list addr) (w : world NS) :
  NoDup ps ->
  (forall p, p ∈ ps -> is_Some (heap w !! p)) ->
  exists h',
    forM_ free (Some <$> ps) w =
      (Ret tt, MkWorld (gostore w) h' (native w) (trace w ++ (EvFree <$> ps))) /\
    forall q, q ∉ ps -> h' !! q = heap w !! q.
Proof.
  revert w. induction ps as [|p ps IH]; intros w Hnd Hlive.
  - exists (heap w). simpl. unfold ret. rewrite app_nil_r, world_eta. done.
  - apply NoDup_cons in Hnd as [Hp Hnd].
    destruct (Hlive p) as [b Hb]; [by left|].
    destruct (IH (emit (EvFree p) (set_heap (delete p (heap w)) w)) Hnd)
      as (h' & Hrun & Hkeep).
    { intros q Hq. simpl. rewrite lookup_delete_ne.
      - apply Hlive. by right.
      - intros ->. done. }
    exists h'. split.
    + rewrite !fmap_cons. cbn [forM_]. unfold bind at 1. unfold free at 1.
      rewrite Hb, Hrun. cbn [emit set_heap gostore heap native trace].
      by rewrite <- app_assoc.
    + intros q Hq. apply not_elem_of_cons in Hq as [Hne Hq].
      rewrite (Hkeep q Hq). simpl. by apply lookup_delete_ne.
Qed.

(** *** Computations that only add events of one kind *)

Lemma only_ret {A : Type} (P : event -> Prop) (a : A) : only (NS := NS) P (ret a).
Proof. intros w. exists []. simpl. by rewrite app_nil_r. Qed.

Lemma only_raise {A : Type} (P : event -> Prop) (p : panic) :
  only (NS := NS) P (raise (A := A) p).
Proof. intros w. exists []. simpl. by rewrite app_nil_r. Qed.

Lemma only_crash {A : Type} (P : event -> Prop) : only (NS := NS) P (crash (A := A)).
Proof. intros w. exists []. simpl. by rewrite app_nil_r. Qed.

Lemma only_bind {A B : Type} (P : event -> Prop) (m : M NS A) (k : A -> M NS B) :
  only P m -> (forall a, only (NS := NS) P (k a)) -> only (NS := NS) P (bind m k).
Proof.
  intros Hm Hk w. unfold bind.
  destruct (Hm w) as (e1 & Ht1 & HP1).
  destruct (m w) as [[a| |] w1]; simpl in *; [|by eauto..].
  destruct (Hk a w1) as (e2 & Ht2 & HP2).
  exists (e1 ++ e2). rewrite Ht2, Ht1, app_assoc. split; [done|].
  by apply Forall_app.
Qed.

Lemma only_free (P : event -> Prop) (p : cptr) :
  (forall a, P (EvFree a)) -> only (NS := NS) P (free p).
Proof.
  intros HP w. unfold free. destruct p as [a|].
  - exists [EvFree a]. split; [|by constructor].
    by destruct (heap w !! a).
  - exists []. simpl. by rewrite app_nil_r.
Qed.

Lemma only_forM_free (P : event -> Prop) (ps : list cptr) :
  (forall a, P (EvFree a)) -> only (NS := NS) P (forM_ free ps).
Proof.
  intros HP. induction ps as [|p ps IH]; simpl.
  - apply only_ret.
  - apply only_bind; [by apply only_free | done].
Qed.

Lemma only_read_block (P : event -> Prop) (ev : cptr -> Z -> event) (p : cptr) (n : Z) :
  P (ev p n) -> only (NS := NS) P (read_block ev p n).
Proof.
  intros HP w. exists [ev p n]. split; [|by constructor].
  unfold read_block. destruct p as [a|]; [|done].
  destruct (heap w !! a) as [blk|]; [|done].
  by destruct (n <=? len blk).
Qed.

Lemma only_GoStringN (P : event -> Prop) (p : cptr) (n : Z) :
  (forall q k, P (EvGoStringN q k)) -> only (NS := NS) P (GoStringN p n).
Proof.
  intros HP. unfold GoStringN.
  destruct (n =? 0); [apply only_ret|].
  destruct (n <? 0); [apply only_crash|].
  by apply only_read_block.
Qed.

Lemma only_GoBytes (P : event -> Prop) (p : cptr) (n : Z) :
  (forall q k, P (EvGoBytes q k)) -> only (NS := NS) P (GoBytes p n).
Proof.
  intros HP. unfold GoBytes.
  destruct (n =? 0); [apply only_ret|].
  destruct (n <? 0); [apply only_raise|].
  apply only_bind; [by apply only_read_block | intros; apply only_ret].
Qed.

(** *** The guarded copy-out of one output buffer *)

Ltac wsimpl :=
  unfold emit, set_heap, set_native; cbn [gostore heap native trace].

Lemma fetch_info_run (w : world NS) (p : cptr) (b : option (list byte)) (n : Z) :
  fetchable b n ->
  (forall a, p = Some a -> heap w !! a = b) ->
  (p = None -> b = None) ->
  (if 0 <? n
   then s <- GoStringN p (to_cint n) ;; free p ;;; ret s
   else ret []) w =
  (Ret (fetched b n),
   MkWorld (gostore w) (fetch_heap p n (heap w)) (native w)
     (trace w ++ fetch_events EvGoStringN p n)).
Proof.
  intros Hf Hp Hnull. unfold fetched, fetch_heap, fetch_events.
  destruct (Z.ltb_spec 0 n) as [Hn|Hn].
  - destruct (Hf Hn) as (Hk & blk & -> & Hlen).
    destruct p as [a|]; [|by specialize (Hnull eq_refl)].
    specialize (Hp a eq_refl).
    unfold bind, GoStringN.
    destruct (Z.eqb_spec (to_cint n) 0) as [Hz|Hz].
    + unfold ret, free. rewrite Hp, Hz. done.
    + destruct (Z.ltb_spec (to_cint n) 0) as [?|_]; [lia|].
      unfold read_block. rewrite Hp.
      destruct (Z.leb_spec (to_cint n) (len blk)) as [_|?]; [|lia].
      unfold free. wsimpl. rewrite Hp.
      unfold ret. wsimpl. by rewrite <- app_assoc.
  - unfold ret. by rewrite app_nil_r, world_eta.
Qed.

Lemma fetch_buffer_run (w : world NS) (p : cptr) (b : option (list byte)) (n : Z) :
  fetchable b n ->
  (forall a, p = Some a -> heap w !! a = b) ->
  (p = None -> b = None) ->
  (if 0 <? n
   then s <- GoBytes p (to_cint n) ;; free p ;;; ret s
   else ret None) w =
  (Ret (payload b n),
   MkWorld (gostore w) (fetch_heap p n (heap w)) (native w)
     (trace w ++ fetch_events EvGoBytes p n)).
Proof.
  intros Hf Hp Hnull. unfold payload, fetch_heap, fetch_events.
  destruct (Z.ltb_spec 0 n) as [Hn|Hn].
  - destruct (Hf Hn) as (Hk & blk & -> & Hlen).
    destruct p as [a|]; [|by specialize (Hnull eq_refl)].
    specialize (Hp a eq_refl).
    unfold bind at 1. unfold GoBytes.
    destruct (Z.eqb_spec (to_cint n) 0) as [Hz|Hz].
    + unfold bind, ret, free. rewrite Hp, Hz. done.
    + destruct (Z.ltb_spec (to_cint n) 0) as [?|_]; [lia|].
      unfold bind, read_block. rewrite Hp.
      destruct (Z.leb_spec (to_cint n) (len blk)) as [_|?]; [|lia].
      unfold free, ret. wsimpl. rewrite Hp.
      by rewrite <- app_assoc.
  - unfold ret. by rewrite app_nil_r, world_eta.
Qed.

(** *** The call and the copy-out *)

Lemma mdsCommand_call_ok (w : world NS) (h : positive) (m : MountInfo)
    (spec : cptr) (argv : list cptr) (argc : Z) (inbuf : cptr) (inbufLen : Z) :
  gostore w !! h = Some m ->
  argv <> [] ->
  let c := MkMdsCall (mount m) spec argv (to_size_t argc) inbuf (to_size_t inbufLen) in
  let r := (ceph_mds_command L c (heap w) (native w)).1 in
  fetchable (r_outs r) (r_outslen r) ->
  fetchable (r_outbuf r) (r_outbuflen r) ->
  mdsCommand_call L h spec argv argc inbuf inbufLen w =
  (Ret (result_of r),
   MkWorld (gostore w) (heap_on_copy r (heap w))
     (ceph_mds_command L c (heap w) (native w)).2
     (trace w ++ EvMdsCommand c r (outbuf_ptr r (heap w)) (outs_ptr r (heap w))
              :: copy_events r (heap w))).
Proof.
  intros Hlive Hargv c r Hs Hb.
  unfold mdsCommand_call. unfold bind at 1. unfold load_mount. rewrite Hlive.
  unfold bind at 1. unfold addr_of_index.
  destruct argv as [|a0 argv']; [done|].
  replace ((0 <=? 0) && (0 <? len (a0 :: argv'))) with true
    by (unfold len; simpl length; symmetry; apply andb_true_iff; split;
        [apply Z.leb_le | apply Z.ltb_lt]; lia).
  unfold ret at 1. unfold bind at 1. unfold call_ceph_mds_command.
  fold c. subst r.
  unfold heap_on_copy, copy_events, heap_on_return, outbuf_ptr, outs_ptr, result_of.
  destruct (ceph_mds_command L c (heap w) (native w)) as [r s]. cbn [fst snd] in *.
  pose proof (callee_alloc_some (r_outbuf r) (heap w)) as Hob.
  pose proof (callee_alloc_null (r_outbuf r) (heap w)) as Hobn.
  pose proof (callee_alloc_keeps (r_outs r) (callee_alloc (r_outbuf r) (heap w)).2) as Hkeep.
  destruct (callee_alloc (r_outbuf r) (heap w)) as [ob h4]. cbn [fst snd] in *.
  pose proof (callee_alloc_some (r_outs r) h4) as Hos.
  pose proof (callee_alloc_null (r_outs r) h4) as Hosn.
  destruct (callee_alloc (r_outs r) h4) as [os h5]. cbn [fst snd] in *.
  wsimpl. unfold bind at 1.
  rewrite (fetch_info_run _ os (r_outs r) (r_outslen r)); [|done| |done].
  2:{ intros a ->. destruct (Hos a eq_refl) as (blk & -> & _ & Hlk). done. }
  unfold bind at 1. cbn [gostore heap native trace].
  rewrite (fetch_buffer_run _ ob (r_outbuf r) (r_outbuflen r)); [|done| |done].
  2:{ intros a ->. cbn [heap].
      destruct (Hob a eq_refl) as (blk & -> & _ & Hlk).
      rewrite fetch_heap_keeps; [by apply Hkeep|].
      intros ->. destruct (Hos a eq_refl) as (blk' & _ & Hnone & _). congruence. }
  cbn [gostore heap native trace]. unfold ret.
  rewrite <- !app_assoc. cbn [app].
  by destruct (negb (r_ret r =? 0)).
Qed.

(** Whatever the reply, the copy-out only reads and frees. *)
Lemma copy_event_quiet (n : Z) (e : event) : copy_event n e -> quiet e.
Proof. by destruct e. Qed.

Lemma copy_events_are_quiet (n : Z) (l : list event) :
  Forall (copy_event n) l -> Forall quiet l.
Proof. intros Hl. eapply Forall_impl; [exact Hl|]. apply copy_event_quiet. Qed.

Lemma copy_out_only (r : Z) (outbuf : cptr) (outbuflen : Z) (outs : cptr) (outslen : Z) :
  only (NS := NS) (copy_event outbuflen)
    (info <- (if 0 <? outslen
              then s <- GoStringN outs (to_cint outslen) ;; free outs ;;; ret s
              else ret []) ;;
     buffer <- (if 0 <? outbuflen
                then b <- GoBytes outbuf (to_cint outbuflen) ;; free outbuf ;;; ret b
                else ret None) ;;
     if negb (r =? 0) then ret (None, info, getError r)
     else ret (buffer, info, None)).
Proof.
  apply only_bind.
  { destruct (0 <? outslen); [|apply only_ret].
    apply only_bind; [by apply only_GoStringN|]. intros s.
    apply only_bind; [by apply only_free|]. intros _. apply only_ret. }
  intros info. apply only_bind.
  { destruct (Z.ltb_spec 0 outbuflen) as [Hpos|_]; [|apply only_ret].
    apply only_bind; [by apply only_GoBytes|]. intros b.
    apply only_bind; [by apply only_free|]. intros _. apply only_ret. }
  intros buffer. destruct (negb (r =? 0)); apply only_ret.
Qed.

(** What the copy-out returns, when it returns: nothing but the error
    after a non-zero result, and a nil payload when the output-buffer
    length is zero. *)
Lemma copy_out_result (r : Z) (outbuf : cptr) (outbuflen : Z) (outs : cptr)
    (outslen : Z) (w w' : world NS) (res : goslice * gostring * error) :
  (info <- (if 0 <? outslen
            then s <- GoStringN outs (to_cint outslen) ;; free outs ;;; ret s
            else ret []) ;;
   buffer <- (if 0 <? outbuflen
              then b <- GoBytes outbuf (to_cint outbuflen) ;; free outbuf ;;; ret b
              else ret None) ;;
   if negb (r =? 0) then ret (None, info, getError r)
   else ret (buffer, info, None)) w = (Ret res, w') ->
  (r <> 0 -> res.1.1 = None /\ res.2 = getError r) /\
  (outbuflen = 0 -> res.1.1 = None).
Proof.
  unfold bind at 1.
  destruct ((if 0 <? outslen
             then s <- GoStringN outs (to_cint outslen) ;; free outs ;;; ret s
             else ret []) w) as [[info| |] w1]; [|done..].
  unfold bind at 1.
  destruct ((if 0 <? outbuflen
             then b <- GoBytes outbuf (to_cint outbuflen) ;; free outbuf ;;; ret b
             else ret None) w1) as [[buffer| |] w2] eqn:Hbuf; [|done..].
  unfold ret. destruct (Z.eqb_spec r 0) as [Hr|Hr]; cbn [negb]; intros [= <- _].
  - split; [done|]. intros ->. cbn [Z.ltb Z.compare] in Hbuf.
    unfold ret in Hbuf. by injection Hbuf as <- _.
  - by split.
Qed.

(** The call part adds no event at all (it panicked before the call), or
    the call followed by reads and frees. *)
Lemma mdsCommand_call_trace (w : world NS) (h : positive)
    (spec : cptr) (argv : list cptr) (argc : Z) (inbuf : cptr) (inbufLen : Z) :
  exists evs,
    trace (mdsCommand_call L h spec argv argc inbuf inbufLen w).2 = trace w ++ evs /\
    (evs = [] /\ (gostore w !! h = None \/ argv = []) \/
     exists m post,
       gostore w !! h = Some m /\ argv <> [] /\
       let c := MkMdsCall (mount m) spec argv (to_size_t argc) inbuf (to_size_t inbufLen) in
       let r := (ceph_mds_command L c (heap w) (native w)).1 in
       evs = EvMdsCommand c r (outbuf_ptr r (heap w)) (outs_ptr r (heap w)) :: post /\
       Forall (copy_event (r_outbuflen r)) post).
Proof.
  cbv zeta. unfold mdsCommand_call. unfold bind at 1. unfold load_mount.
  destruct (gostore w !! h) as [m|] eqn:Hlive.
  2:{ exists []. rewrite app_nil_r. split; [done|]. left. by split; [|left]. }
  unfold bind at 1. unfold addr_of_index.
  destruct argv as [|a0 argv'].
  { exists []. rewrite app_nil_r. split; [done|]. left. by split; [|right]. }
  replace ((0 <=? 0) && (0 <? len (a0 :: argv'))) with true
    by (unfold len; simpl length; symmetry; apply andb_true_iff; split;
        [apply Z.leb_le | apply Z.ltb_lt]; lia).
  unfold ret at 1. unfold bind at 1. unfold call_ceph_mds_command.
  unfold outbuf_ptr, outs_ptr.
  set (c := MkMdsCall (mount m) spec (a0 :: argv') (to_size_t argc) inbuf
              (to_size_t inbufLen)).
  destruct (ceph_mds_command L c (heap w) (native w)) as [r s] eqn:Ecall.
  destruct (callee_alloc (r_outbuf r) (heap w)) as [ob h4] eqn:Eob.
  destruct (callee_alloc (r_outs r) h4) as [os h5] eqn:Eos.
  destruct (copy_out_only (r_ret r) ob (r_outbuflen r) os (r_outslen r)
              (emit (EvMdsCommand c r ob os) (set_native s (set_heap h5 w))))
    as (post & Ht & Hq).
  exists (EvMdsCommand c r ob os :: post). split.
  - etransitivity; [exact Ht|]. wsimpl. by rewrite <- app_assoc.
  - right. exists m, post. fold c. rewrite Ecall. cbn [fst snd].
    rewrite Eob. cbn [fst snd]. rewrite Eos. done.
Qed.

(** *** Deferred calls *)

Lemma defer_ret {A : Type} (d : M NS unit) (body : M NS A) (w w1 w2 : world NS) (a : A) :
  body w = (Ret a, w1) -> d w1 = (Ret tt, w2) -> defer d body w = (Ret a, w2).
Proof. intros Hb Hd. unfold defer. by rewrite Hb, Hd. Qed.

Lemma defer_panic {A : Type} (d : M NS unit) (body : M NS A) (w w1 w2 : world NS) (p : panic) :
  body w = (Panic p, w1) -> d w1 = (Ret tt, w2) -> defer d body w = (Panic p, w2).
Proof. intros Hb Hd. unfold defer. by rewrite Hb, Hd. Qed.

(** What a deferred call adds, it adds behind its body. *)
Lemma defer_trace {A : Type} (P : event -> Prop) (d : M NS unit) (body : M NS A)
    (w : world NS) :
  only P d ->
  exists tail,
    trace (defer d body w).2 = trace (body w).2 ++ tail /\ Forall P tail.
Proof.
  intros Hd. unfold defer. destruct (body w) as [o w1]. cbn [snd].
  destruct (Hd w1) as (tail & Ht & Hq).
  destruct o as [a|p|].
  - exists tail. split; [|done]. by destruct (d w1) as [[[]|p'|] w2].
  - exists tail. split; [|done]. by destruct (d w1) as [[[]|p'|] w2].
  - exists []. by rewrite app_nil_r.
Qed.

Lemma free_live (a : addr) (b : list byte) (w : world NS) :
  heap w !! a = Some b ->
  free (Some a) w =
  (Ret tt, MkWorld (gostore w) (delete a (heap w)) (native w) (trace w ++ [EvFree a])).
Proof. intros Hb. unfold free. by rewrite Hb. Qed.

(** *** The heap around the call *)

Lemma heap_on_copy_keeps (r : mds_reply) (h : cheap) (q : addr) (x : list byte) :
  h !! q = Some x -> heap_on_copy r h !! q = Some x.
Proof.
  intros Hq. unfold heap_on_copy, heap_on_return, outbuf_ptr, outs_ptr.
  pose proof (callee_alloc_keeps (r_outbuf r) h q x Hq) as H4.
  pose proof (callee_alloc_keeps (r_outs r) _ q x H4) as H5.
  rewrite !fetch_heap_keeps; [done| |].
  - intros Hos. apply callee_alloc_some in Hos as (blk & _ & Hnone & _). congruence.
  - intros Hob. apply callee_alloc_some in Hob as (blk & _ & Hnone & _). congruence.
Qed.

Section Marshal.

Variables (mdsSpec : gostring) (args : list gostring) (input : goslice) (h0 : cheap).

Lemma spec_live_1 : heap1 mdsSpec h0 !! spec_addr h0 = Some (mdsSpec ++ [x00]).
Proof. apply lookup_insert_eq. Qed.

Lemma spec_live_2 : heap2 mdsSpec args h0 !! spec_addr h0 = Some (mdsSpec ++ [x00]).
Proof. apply alloc_strings_keeps, spec_live_1. Qed.

Lemma args_live_2 (p : addr) :
  p ∈ arg_addrs mdsSpec args h0 -> is_Some (heap2 mdsSpec args h0 !! p).
Proof. intros Hp. by apply alloc_strings_new in Hp as [_ ?]. Qed.

Lemma spec_not_arg : spec_addr h0 ∉ arg_addrs mdsSpec args h0.
Proof.
  intros Hin. apply alloc_strings_new in Hin as [Hnone _].
  by rewrite spec_live_1 in Hnone.
Qed.

Lemma in_not_spec : in_addr mdsSpec args h0 <> spec_addr h0.
Proof.
  intros Heq. pose proof (fresh_addr_fresh (heap2 mdsSpec args h0)) as Hf.
  fold (in_addr mdsSpec args h0) in Hf. by rewrite Heq, spec_live_2 in Hf.
Qed.

Lemma in_not_arg : in_addr mdsSpec args h0 ∉ arg_addrs mdsSpec args h0.
Proof.
  intros Hin. apply args_live_2 in Hin as [b Hb].
  pose proof (fresh_addr_fresh (heap2 mdsSpec args h0)) as Hf.
  fold (in_addr mdsSpec args h0) in Hf. congruence.
Qed.

Lemma in_live_3 :
  heap3 mdsSpec args input h0 !! in_addr mdsSpec args h0
  = Some (string_of_slice input ++ [x00]).
Proof. apply lookup_insert_eq. Qed.

Lemma spec_live_3 :
  heap3 mdsSpec args input h0 !! spec_addr h0 = Some (mdsSpec ++ [x00]).
Proof.
  unfold heap3. rewrite lookup_insert_ne; [apply spec_live_2 | apply in_not_spec].
Qed.

Lemma args_live_3 (p : addr) :
  p ∈ arg_addrs mdsSpec args h0 -> is_Some (heap3 mdsSpec args input h0 !! p).
Proof.
  intros Hp. unfold heap3. rewrite lookup_insert_ne; [by apply args_live_2|].
  intros Heq. apply in_not_arg. by rewrite Heq.
Qed.

Lemma arg_addrs_length : length (arg_addrs mdsSpec args h0) = length args.
Proof. apply alloc_strings_length. Qed.

(** The [N+2] marshaled blocks are pairwise distinct. *)
Lemma marshal_NoDup :
  NoDup (spec_addr h0 :: arg_addrs mdsSpec args h0 ++ [in_addr mdsSpec args h0]).
Proof.
  apply NoDup_cons. split.
  - intros [Hin|Hin]%elem_of_app.
    + by apply spec_not_arg.
    + apply list_elem_of_singleton in Hin. by apply in_not_spec.
  - apply NoDup_app. split; [apply alloc_strings_NoDup|]. split.
    + intros p Hp Hin. apply list_elem_of_singleton in Hin. subst p.
      by apply in_not_arg.
    + apply NoDup_singleton.
Qed.

End Marshal.

(** *** Whole runs of [mdsCommand] *)

Lemma mdsCommand_ok (w : world NS) (h : positive) (m : MountInfo)
    (mdsSpec : gostring) (args : list gostring) (input : goslice) :
  gostore w !! h = Some m ->
  args <> [] ->
  let c := call_at m mdsSpec args input (heap w) in
  let r := (ceph_mds_command L c (heap3 mdsSpec args input (heap w)) (native w)).1 in
  fetchable (r_outs r) (r_outslen r) ->
  fetchable (r_outbuf r) (r_outbuflen r) ->
  exists hf s,
    mdsCommand L h mdsSpec args input w =
    (Ret (result_of r),
     MkWorld (gostore w) hf s
       (trace w ++ run_events m mdsSpec args input (heap w) r)).
Proof.
  intros Hlive Hargs c r Hs Hb.
  set (a_spec := spec_addr (heap w)).
  set (a_args := arg_addrs mdsSpec args (heap w)).
  set (a_in := in_addr mdsSpec args (heap w)).
  set (h3 := heap3 mdsSpec args input (heap w)).
  set (w3 := MkWorld (gostore w) h3 (native w)
               (((trace w ++ [EvCString a_spec mdsSpec])
                 ++ zip_with EvCString a_args args)
                ++ [EvCString a_in (string_of_slice input)])).
  assert (Hargv : Some <$> a_args <> []).
  { intros Hnil. apply fmap_nil_inv in Hnil.
    apply (f_equal length) in Hnil. unfold a_args in Hnil.
    rewrite arg_addrs_length in Hnil. by destruct args. }
  pose proof (mdsCommand_call_ok w3 h m (Some a_spec) (Some <$> a_args) (len args)
                (Some a_in) (len_slice input) Hlive Hargv Hs Hb) as Hcall.
  cbv zeta in Hcall. fold c r in Hcall. cbn [gostore heap native trace] in Hcall.
  set (w4 := MkWorld (gostore w) (heap_on_copy r h3)
               (ceph_mds_command L c h3 (native w)).2
               (trace w3 ++ EvMdsCommand c r (outbuf_ptr r h3) (outs_ptr r h3)
                  :: copy_events r h3)) in *.
  assert (Hfin : free (Some a_in) w4 =
                 (Ret tt, MkWorld (gostore w4) (delete a_in (heap w4)) (native w4)
                            (trace w4 ++ [EvFree a_in]))).
  { eapply free_live. cbn [heap w4]. apply heap_on_copy_keeps, in_live_3. }
  set (w5 := MkWorld (gostore w4) (delete a_in (heap w4)) (native w4)
               (trace w4 ++ [EvFree a_in])) in *.
  destruct (forM_free_run a_args w5) as (h6 & Hfargs & Hkeep6).
  { apply alloc_strings_NoDup. }
  { intros p Hp. cbn [heap w5 w4]. rewrite lookup_delete_ne.
    - destruct (args_live_3 mdsSpec args input (heap w) p Hp) as [b Hb'].
      exists b. by apply heap_on_copy_keeps.
    - intros <-. by apply (in_not_arg mdsSpec args (heap w)). }
  set (w6 := MkWorld (gostore w5) h6 (native w5) (trace w5 ++ (EvFree <$> a_args))) in *.
  assert (Hfspec : free (Some a_spec) w6 =
                   (Ret tt, MkWorld (gostore w6) (delete a_spec (heap w6)) (native w6)
                              (trace w6 ++ [EvFree a_spec]))).
  { eapply free_live. cbn [heap w6].
    rewrite Hkeep6 by apply spec_not_arg. cbn [heap w5 w4].
    rewrite lookup_delete_ne by apply in_not_spec.
    apply heap_on_copy_keeps, spec_live_3. }
  exists (delete a_spec h6), (ceph_mds_command L c h3 (native w)).2.
  unfold mdsCommand. unfold bind at 1. unfold CString at 1.
  erewrite defer_ret; [|..|exact Hfspec].
  2:{ unfold bind at 1. rewrite mapM_CString_run. wsimpl.
      eapply defer_ret; [|exact Hfargs].
      unfold bind at 1. unfold CString at 1. wsimpl.
      eapply defer_ret; [|exact Hfin].
      exact Hcall. }
  f_equal. unfold w6, w5, w4, w3. cbn [gostore heap native trace].
  f_equal. unfold run_events, marshal_events.
  rewrite <- !app_assoc. cbn [app]. rewrite <- !app_assoc. done.
Qed.

(** Every run: the marshaling, then either nothing (a panic before the
    call) or the call followed by reads and frees, then the deferred
    frees. *)
Lemma mdsCommand_trace (w : world NS) (h : positive)
    (mdsSpec : gostring) (args : list gostring) (input : goslice) :
  exists body tail,
    trace (mdsCommand L h mdsSpec args input w).2 =
      trace w ++ marshal_events mdsSpec args input (heap w) ++ body ++ tail /\
    Forall (copy_event 0) tail /\
    (body = [] /\ (gostore w !! h = None \/ args = []) \/
     exists m post,
       gostore w !! h = Some m /\ args <> [] /\
       let c := call_at m mdsSpec args input (heap w) in
       let h3 := heap3 mdsSpec args input (heap w) in
       let r := (ceph_mds_command L c h3 (native w)).1 in
       body = EvMdsCommand c r (outbuf_ptr r h3) (outs_ptr r h3) :: post /\
       Forall (copy_event (r_outbuflen r)) post).
Proof.
  remember (trace (mdsCommand L h mdsSpec args input w).2) as T eqn:HT.
  unfold mdsCommand in HT. unfold bind at 1 in HT. unfold CString at 1 in HT.
  match type of HT with context [defer ?d ?b ?w1] =>
    destruct (defer_trace (copy_event 0) d b w1) as (t1 & Ht1 & Hq1); [by apply only_free|]
  end.
  rewrite Ht1 in HT. clear Ht1.
  unfold bind at 1 in HT. rewrite mapM_CString_run in HT.
  cbn [emit set_heap gostore heap native trace] in HT.
  match type of HT with context [defer ?d ?b ?w1] =>
    destruct (defer_trace (copy_event 0) d b w1) as (t2 & Ht2 & Hq2); [by apply only_forM_free|]
  end.
  rewrite Ht2 in HT. clear Ht2.
  unfold bind at 1 in HT. unfold CString at 1 in HT.
  match type of HT with context [defer ?d ?b ?w1] =>
    destruct (defer_trace (copy_event 0) d b w1) as (t3 & Ht3 & Hq3); [by apply only_free|]
  end.
  rewrite Ht3 in HT. clear Ht3.
  match type of HT with context [mdsCommand_call L ?h ?s ?av ?ac ?ib ?il ?w3] =>
    destruct (mdsCommand_call_trace w3 h s av ac ib il) as (body & Hb & Hcase)
  end.
  rewrite Hb in HT. clear Hb.
  cbn [emit set_heap gostore heap native trace] in HT, Hcase.
  exists body, (t3 ++ t2 ++ t1). split; [|split].
  - subst T. unfold marshal_events, arg_addrs, in_addr, heap2, heap1, spec_addr.
    rewrite <- !app_assoc. cbn [app]. by rewrite <- !app_assoc.
  - by repeat apply Forall_app_2.
  - destruct Hcase as [[-> Hwhy]|(m & post & Hlive & Hargv & Hbody & Hq)].
    + left. split; [done|]. destruct Hwhy as [Hdead|Hnil]; [by left|right].
      apply fmap_nil_inv in Hnil. apply (f_equal length) in Hnil.
      rewrite alloc_strings_length in Hnil. by destruct args.
    + right. exists m, post. split; [done|]. split; [|done].
      intros ->. by apply Hargv.
Qed.

(** *** What a returned result says about the run *)

Lemma defer_ret_inv {A : Type} (d : M NS unit) (body : M NS A) (w w' : world NS) (a : A) :
  defer d body w = (Ret a, w') -> exists w1, body w = (Ret a, w1).
Proof.
  unfold defer. destruct (body w) as [[b|p|] w1]; [| |done].
  - destruct (d w1) as [[[]|p'|] w2]; [|done..]. intros [= <- _]. by exists w1.
  - by destruct (d w1) as [[[]|p'|] w2].
Qed.

Lemma mdsCommand_call_result (w w' : world NS) (h : positive) (m : MountInfo)
    (spec : cptr) (argv : list cptr) (argc : Z) (inbuf : cptr) (inbufLen : Z)
    (res : goslice * gostring * error) :
  gostore w !! h = Some m ->
  let c := MkMdsCall (mount m) spec argv (to_size_t argc) inbuf (to_size_t inbufLen) in
  let r := (ceph_mds_command L c (heap w) (native w)).1 in
  mdsCommand_call L h spec argv argc inbuf inbufLen w = (Ret res, w') ->
  (r_ret r <> 0 -> res.1.1 = None /\ res.2 = getError (r_ret r)) /\
  (r_outbuflen r = 0 -> res.1.1 = None).
Proof.
  intros Hlive c. cbv zeta.
  unfold mdsCommand_call. unfold bind at 1. unfold load_mount.
  rewrite Hlive. unfold bind at 1.
  destruct (addr_of_index argv 0 w) as [[[]|p|] w1] eqn:Hidx; [|done..].
  assert (w1 = w) as ->.
  { unfold addr_of_index in Hidx.
    destruct ((0 <=? 0) && (0 <? len argv)); by injection Hidx. }
  unfold bind at 1. unfold call_ceph_mds_command. fold c.
  destruct (ceph_mds_command L c (heap w) (native w)) as [r s]. cbn [fst].
  destruct (callee_alloc (r_outbuf r) (heap w)) as [ob h4].
  destruct (callee_alloc (r_outs r) h4) as [os h5].
  apply copy_out_result.
Qed.

(** A run that returns went through the call part and took its result. *)
Lemma mdsCommand_ret_call (w w' : world NS) (h : positive)
    (mdsSpec : gostring) (args : list gostring) (input : goslice)
    (res : goslice * gostring * error) :
  mdsCommand L h mdsSpec args input w = (Ret res, w') ->
  exists w3 w4,
    gostore w3 = gostore w /\
    heap w3 = heap3 mdsSpec args input (heap w) /\
    native w3 = native w /\
    mdsCommand_call L h (Some (spec_addr (heap w)))
      (Some <$> arg_addrs mdsSpec args (heap w)) (len args)
      (Some (in_addr mdsSpec args (heap w))) (len_slice input) w3 = (Ret res, w4).
Proof.
  unfold mdsCommand. unfold bind at 1. unfold CString at 1.
  intros [w1 H1]%defer_ret_inv.
  unfold bind at 1 in H1. rewrite mapM_CString_run in H1.
  apply defer_ret_inv in H1 as [w2 H2].
  unfold bind at 1 in H2. unfold CString at 1 in H2.
  apply defer_ret_inv in H2 as [w4 H4].
  eexists _, w4. split; [|split; [|split; [|exact H4]]]; reflexivity.
Qed.

Lemma mdsCommand_result (w w' : world NS) (h : positive) (m : MountInfo)
    (mdsSpec : gostring) (args : list gostring) (input : goslice)
    (res : goslice * gostring * error) :
  gostore w !! h = Some m ->
  let r := reply_at L m mdsSpec args input w in
  mdsCommand L h mdsSpec args input w = (Ret res, w') ->
  (r_ret r <> 0 -> res.1.1 = None /\ res.2 = getError (r_ret r)) /\
  (r_outbuflen r = 0 -> res.1.1 = None).
Proof.
  intros Hlive r Hrun. subst r. unfold reply_at.
  apply mdsCommand_ret_call in Hrun as (w3 & w4 & Hg & Hh & Hn & Hcall).
  rewrite <- Hh, <- Hn.
  eapply (mdsCommand_call_result w3 w4 h m); [by rewrite Hg|exact Hcall].
Qed.

End Runs.

(** ** What the trace of [mdsCommand] says about the call *)

Section Calls.

Context {NS : Type} (L : libcephfs NS).

(** *** Finding the call in the trace *)

Lemma copy_not_call (n : Z) (l : list event) (c : mds_call) (r : mds_reply)
    (ob os : cptr) :
  Forall (copy_event n) l -> EvMdsCommand c r ob os ∉ l.
Proof.
  intros Hq Hin. rewrite Forall_forall in Hq. by apply Hq in Hin.
Qed.

Lemma copy_not_GoBytes (l : list event) (p : cptr) (n : Z) :
  Forall (copy_event 0) l -> EvGoBytes p n ∉ l.
Proof.
  intros Hq Hin. rewrite Forall_forall in Hq. apply Hq in Hin. simpl in Hin. lia.
Qed.

Lemma marshal_events_CString (mdsSpec : gostring) (args : list gostring)
    (input : goslice) (h0 : cheap) (e : event) :
  e ∈ marshal_events mdsSpec args input h0 -> exists p s, e = EvCString p s.
Proof.
  unfold marshal_events. intros Hin.
  apply elem_of_cons in Hin as [->|Hin]; [by eauto|].
  apply elem_of_app in Hin as [Hin|Hin].
  - apply elem_of_zip_with in Hin as (p & s & -> & _). eauto.
  - apply list_elem_of_singleton in Hin as ->. eauto.
Qed.

Lemma marshal_not_call (mdsSpec : gostring) (args : list gostring) (input : goslice)
    (h0 : cheap) (c : mds_call) (r : mds_reply) (ob os : cptr) :
  EvMdsCommand c r ob os ∉ marshal_events mdsSpec args input h0.
Proof. by intros (p & s & ?)%marshal_events_CString. Qed.

(** A live handle and at least one argument: the run reaches the call. *)
Lemma mdsCommand_reaches_call (w : world NS) (h : positive) (m : MountInfo)
    (mdsSpec : gostring) (args : list gostring) (input : goslice) :
  gostore w !! h = Some m ->
  args <> [] ->
  let r := reply_at L m mdsSpec args input w in
  let h3 := heap3 mdsSpec args input (heap w) in
  exists post tail,
    new_events w (mdsCommand L h mdsSpec args input w).2 =
    marshal_events mdsSpec args input (heap w)
    ++ EvMdsCommand (call_at m mdsSpec args input (heap w)) r
         (outbuf_ptr r h3) (outs_ptr r h3) :: post ++ tail /\
    Forall (copy_event (r_outbuflen r)) post /\
    Forall (copy_event 0) tail.
Proof.
  intros Hlive Hargs r h3.
  destruct (mdsCommand_trace L w h mdsSpec args input)
    as (body & tail & Ht & Hq & Hcase).
  destruct Hcase as [[_ [Hdead|Hnil]]|(m' & post & Hlive' & _ & Hbody & Hqp)];
    [congruence|done|].
  assert (m' = m) as -> by congruence.
  cbv zeta in Hbody. subst body.
  exists post, tail. split; [|done].
  apply new_events_app. rewrite Ht. done.
Qed.

(** Conversely, a call event in the trace of a run is that call. *)
Lemma mdsCommand_call_event (w : world NS) (h : positive)
    (mdsSpec : gostring) (args : list gostring) (input : goslice)
    (c : mds_call) (r : mds_reply) (ob os : cptr) :
  EvMdsCommand c r ob os ∈ new_events w (mdsCommand L h mdsSpec args input w).2 ->
  exists m,
    gostore w !! h = Some m /\ args <> [] /\
    c = call_at m mdsSpec args input (heap w) /\
    r = reply_at L m mdsSpec args input w /\
    ob = outbuf_ptr r (heap3 mdsSpec args input (heap w)) /\
    os = outs_ptr r (heap3 mdsSpec args input (heap w)).
Proof.
  intros Hin.
  destruct (mdsCommand_trace L w h mdsSpec args input)
    as (body & tail & Ht & Hq & Hcase).
  rewrite (new_events_app _ _ _ Ht) in Hin.
  apply elem_of_app in Hin as [Hin|Hin]; [by apply marshal_not_call in Hin|].
  apply elem_of_app in Hin as [Hin|Hin]; [|by apply (copy_not_call 0) in Hin].
  destruct Hcase as [[-> _]|(m & post & Hlive & Hargs & Hbody & Hqp)].
  { by apply elem_of_nil in Hin. }
  cbv zeta in Hbody. subst body.
  apply elem_of_cons in Hin as [Heq|Hin]; [|by eapply copy_not_call in Hin].
  injection Heq as -> -> -> ->. exists m. done.
Qed.

(** *** Replies that honour the contract *)

Lemma holds_fetchable (b : option (list byte)) (n : Z) :
  holds b n -> n <= INT_MAX -> fetchable b n.
Proof.
  intros [Hn Hb] Hfit Hpos. specialize (Hb Hpos).
  assert (Hid : to_cint n = n).
  { apply to_cint_id. unfold is_cint, INT_MIN, INT_MAX in *. lia. }
  rewrite Hid. split; [lia|].
  destruct b as [blk|]; [|done]. by exists blk.
Qed.

Lemma fetched_fits (b : option (list byte)) (n : Z) :
  0 <= n <= INT_MAX -> fetched b n = copied b n.
Proof.
  intros Hn. unfold fetched.
  destruct (Z.ltb_spec 0 n) as [Hpos|Hle].
  - rewrite to_cint_id; [done|]. unfold is_cint, INT_MIN, INT_MAX in *. lia.
  - assert (n = 0) as -> by lia. by destruct b as [blk|].
Qed.

(** A run whose reply honours the contract and fits: its result and its
    events. *)
Lemma mdsCommand_good_run (w w' : world NS) (h : positive)
    (mdsSpec : gostring) (args : list gostring) (input : goslice)
    (o : outcome (goslice * gostring * error))
    (c : mds_call) (r : mds_reply) (ob os : cptr) :
  mdsCommand L h mdsSpec args input w = (o, w') ->
  EvMdsCommand c r ob os ∈ new_events w w' ->
  reply_ok r -> reply_fits r ->
  exists m,
    gostore w !! h = Some m /\ args <> [] /\
    c = call_at m mdsSpec args input (heap w) /\
    ob = outbuf_ptr r (heap3 mdsSpec args input (heap w)) /\
    os = outs_ptr r (heap3 mdsSpec args input (heap w)) /\
    o = Ret (result_of r) /\
    new_events w w' = run_events m mdsSpec args input (heap w) r.
Proof.
  intros Hrun Hin (Hret & Hbuf & Hs) [Hfb Hfs].
  replace w' with (mdsCommand L h mdsSpec args input w).2 in Hin by by rewrite Hrun.
  apply mdsCommand_call_event in Hin as (m & Hlive & Hargs & -> & Hr & -> & ->).
  exists m. do 5 (split; [done|]).
  destruct (mdsCommand_ok L w h m mdsSpec args input Hlive Hargs) as (hf & s & Hok).
  - fold (reply_at L m mdsSpec args input w). rewrite <- Hr. by apply holds_fetchable.
  - fold (reply_at L m mdsSpec args input w). rewrite <- Hr. by apply holds_fetchable.
  - fold (reply_at L m mdsSpec args input w) in Hok. rewrite <- Hr in Hok.
    rewrite Hok in Hrun. injection Hrun as <- <-. split; [done|].
    by apply new_events_app.
Qed.

End Calls.

(** ** Allocations and frees in a trace *)

Lemma allocations_app (l1 l2 : list event) :
  allocations (l1 ++ l2) = allocations l1 ++ allocations l2.
Proof. apply omap_app. Qed.

Lemma frees_app (l1 l2 : list event) : frees (l1 ++ l2) = frees l1 ++ frees l2.
Proof. apply omap_app. Qed.

Lemma allocations_quiet (l : list event) : Forall quiet l -> allocations l = [].
Proof.
  induction 1 as [|e l He _ IH]; [done|].
  unfold allocations in *. cbn [omap list_omap]. by destruct e.
Qed.

Lemma allocations_CStrings (ps : list addr) (ss : list gostring) :
  allocations (zip_with EvCString ps ss) = zip ps ss.
Proof.
  revert ss. induction ps as [|p ps IH]; intros [|s ss]; try done.
  unfold allocations in *. cbn. by rewrite IH.
Qed.

Lemma frees_CStrings (ps : list addr) (ss : list gostring) :
  frees (zip_with EvCString ps ss) = [].
Proof. revert ss. induction ps as [|p ps IH]; intros [|s ss]; try done. apply IH. Qed.

Lemma frees_EvFree (ps : list addr) : frees (EvFree <$> ps) = ps.
Proof.
  induction ps as [|p ps IH]; [done|].
  unfold frees in *. cbn. by rewrite IH.
Qed.

Lemma allocations_marshal (mdsSpec : gostring) (args : list gostring)
    (input : goslice) (h0 : cheap) :
  allocations (marshal_events mdsSpec args input h0) =
  (spec_addr h0, mdsSpec)
  :: zip (arg_addrs mdsSpec args h0) args
  ++ [(in_addr mdsSpec args h0, string_of_slice input)].
Proof.
  unfold marshal_events.
  change (allocations (EvCString ?p ?s :: ?l)) with ((p, s) :: allocations l).
  by rewrite allocations_app, allocations_CStrings.
Qed.

Lemma frees_marshal (mdsSpec : gostring) (args : list gostring)
    (input : goslice) (h0 : cheap) :
  frees (marshal_events mdsSpec args input h0) = [].
Proof.
  unfold marshal_events.
  change (frees (EvCString ?p ?s :: ?l)) with (frees l).
  by rewrite frees_app, frees_CStrings.
Qed.



Lemma frees_fetch_events (ev : cptr -> Z -> event) (p : cptr) (n : Z) (a : addr) :
  (forall q k, frees [ev q k] = []) ->
  a ∈ frees (fetch_events ev p n) -> p = Some a.
Proof.
  intros Hev. unfold fetch_events. destruct (0 <? n); [|by intros ?%elem_of_nil].
  rewrite frees_app.
  assert (Hnil : frees (if to_cint n =? 0 then [] else [ev p (to_cint n)]) = []).
  { destruct (to_cint n =? 0); [done|apply Hev]. }
  rewrite Hnil. destruct p as [b|]; [|by intros ?%elem_of_nil].
  intros Hin. apply list_elem_of_singleton in Hin. by subst.
Qed.






(** ** The status string of a run that returns *)

Section Info.

Context {NS : Type} (L : libcephfs NS).

(** The status string a copy-out that goes through hands on. *)
Lemma fetch_info_ret (w w1 : world NS) (p : cptr) (b : option (list byte)) (n : Z)
    (info : gostring) :
  (forall a, p = Some a -> heap w !! a = b) ->
  (if 0 <? n
   then s <- GoStringN p (to_cint n) ;; free p ;;; ret s
   else ret []) w = (Ret info, w1) ->
  info = fetched b n.
Proof.
  intros Hp. unfold fetched.
  destruct (0 <? n); [|by intros [= <- _]].
  unfold bind at 1. unfold GoStringN.
  destruct (Z.eqb_spec (to_cint n) 0) as [Hz|Hz].
  - unfold ret at 1. unfold bind.
    destruct (free p w) as [[[]| |] w2]; [|done..].
    intros [= <- _]. rewrite Hz. by destruct b.
  - destruct (Z.ltb_spec (to_cint n) 0) as [?|_]; [done|].
    unfold read_block. destruct p as [a|]; [|done].
    rewrite (Hp a eq_refl). destruct b as [blk|]; [|done].
    destruct (to_cint n <=? len blk); [|done].
    unfold bind.
    destruct (free (Some a) _) as [[[]| |] w2]; [|done..].
    by intros [= <- _].
Qed.

Lemma copy_out_info (r : Z) (outbuf : cptr) (outbuflen : Z) (outs : cptr)
    (outslen : Z) (b : option (list byte)) (w w' : world NS)
    (res : goslice * gostring * error) :
  (forall a, outs = Some a -> heap w !! a = b) ->
  (info <- (if 0 <? outslen
            then s <- GoStringN outs (to_cint outslen) ;; free outs ;;; ret s
            else ret []) ;;
   buffer <- (if 0 <? outbuflen
              then b <- GoBytes outbuf (to_cint outbuflen) ;; free outbuf ;;; ret b
              else ret None) ;;
   if negb (r =? 0) then ret (None, info, getError r)
   else ret (buffer, info, None)) w = (Ret res, w') ->
  res.1.2 = fetched b outslen.
Proof.
  intros Hp. unfold bind at 1.
  destruct ((if 0 <? outslen
             then s <- GoStringN outs (to_cint outslen) ;; free outs ;;; ret s
             else ret []) w) as [[info| |] w1] eqn:Hinfo; [|done..].
  apply (fetch_info_ret w w1 outs b outslen info Hp) in Hinfo. subst info.
  unfold bind at 1.
  destruct ((if 0 <? outbuflen
             then b <- GoBytes outbuf (to_cint outbuflen) ;; free outbuf ;;; ret b
             else ret None) w1) as [[buffer| |] w2]; [|done..].
  unfold ret. by destruct (negb (r =? 0)); intros [= <- _].
Qed.

Lemma mdsCommand_call_info (w w' : world NS) (h : positive) (m : MountInfo)
    (spec : cptr) (argv : list cptr) (argc : Z) (inbuf : cptr) (inbufLen : Z)
    (res : goslice * gostring * error) :
  gostore w !! h = Some m ->
  let c := MkMdsCall (mount m) spec argv (to_size_t argc) inbuf (to_size_t inbufLen) in
  let r := (ceph_mds_command L c (heap w) (native w)).1 in
  mdsCommand_call L h spec argv argc inbuf inbufLen w = (Ret res, w') ->
  res.1.2 = fetched (r_outs r) (r_outslen r).
Proof.
  intros Hlive c. cbv zeta.
  unfold mdsCommand_call. unfold bind at 1. unfold load_mount.
  rewrite Hlive. unfold bind at 1.
  destruct (addr_of_index argv 0 w) as [[[]|p|] w1] eqn:Hidx; [|done..].
  assert (w1 = w) as ->.
  { unfold addr_of_index in Hidx.
    destruct ((0 <=? 0) && (0 <? len argv)); by injection Hidx. }
  unfold bind at 1. unfold call_ceph_mds_command. fold c.
  destruct (ceph_mds_command L c (heap w) (native w)) as [r s]. cbn [fst].
  destruct (callee_alloc (r_outbuf r) (heap w)) as [ob h4].
  pose proof (callee_alloc_some (r_outs r) h4) as Hos.
  destruct (callee_alloc (r_outs r) h4) as [os h5]. cbn [fst snd] in Hos.
  apply copy_out_info.
  intros a ->. destruct (Hos a eq_refl) as (blk & -> & _ & Hlk). exact Hlk.
Qed.

(** The status string of a run that returns is the one copied out of the
    reply. *)
Lemma mdsCommand_returned_info (w w' : world NS) (h : positive) (m : MountInfo)
    (mdsSpec : gostring) (args : list gostring) (input : goslice)
    (res : goslice * gostring * error) :
  gostore w !! h = Some m ->
  let r := reply_at L m mdsSpec args input w in
  mdsCommand L h mdsSpec args input w = (Ret res, w') ->
  res.1.2 = fetched (r_outs r) (r_outslen r).
Proof.
  intros Hlive r Hrun. subst r. unfold reply_at.
  apply mdsCommand_ret_call in Hrun as (w3 & w4 & Hg & Hh & Hn & Hcall).
  rewrite <- Hh, <- Hn.
  eapply (mdsCommand_call_info w3 w4 h m); [by rewrite Hg|exact Hcall].
Qed.

End Info.

(** * The claims *)

Section Claims.

Context {NS : Type} (L : libcephfs NS).


(** C3, amended. When the foreign call of an invocation returns a
    non-zero result, any result [mdsCommand] returns carries a nil
    payload, the status string copied out of the reply and the
    [CephFSError] of that result: no payload comes with an error.  For a
    reply that honours the contract of the call and fits a C int,
    [mdsCommand] does return: a nil payload, the status string copied
    out of the reply (empty when the reported length is zero) and the
    [CephFSError] whose code is the result. *)
Theorem mdsCommand_failure (w w' : world NS) (h : positive)
    (mdsSpec : gostring) (args : list gostring) (input : goslice)
    (o : outcome (goslice * gostring * error))
    (c : mds_call) (r : mds_reply) (ob os : cptr) :
  mdsCommand L h mdsSpec args input w = (o, w') ->
  EvMdsCommand c r ob os ∈ new_events w w' ->
  r_ret r <> 0 ->
  (forall buffer info err,
     o = Ret (buffer, info, err) ->
     buffer = None /\ info = fetched (r_outs r) (r_outslen r) /\
     exists e, err = Some e /\ getError (r_ret r) = Some e) /\
  (reply_ok r -> reply_fits r ->
   o = Ret (None, copied (r_outs r) (r_outslen r), Some (MkCephFSError (r_ret r)))).
Proof.
  intros Hrun Hin Hret. split.
  - intros buffer info err ->.
    replace w' with (mdsCommand L h mdsSpec args input w).2 in Hin by by rewrite Hrun.
    apply mdsCommand_call_event in Hin as (m & Hlive & _ & _ & -> & _ & _).
    destruct (mdsCommand_result L w w' h m mdsSpec args input _ Hlive Hrun)
      as [Hfail _].
    pose proof (mdsCommand_returned_info L w w' h m mdsSpec args input _ Hlive Hrun)
      as Hinfo.
    destruct (Hfail Hret) as [Hnil Herr]. cbn [fst snd] in Hnil, Herr, Hinfo.
    split; [done|]. split; [done|]. subst err. unfold getError.
    destruct (Z.eqb_spec (r_ret (reply_at L m mdsSpec args input w)) 0); [done|].
    eauto.
  - intros Hok Hfits.
    destruct (mdsCommand_good_run L w w' h mdsSpec args input o c r ob os
                Hrun Hin Hok Hfits) as (m & _ & _ & _ & _ & _ & -> & _).
    destruct Hok as (Hcint & _ & [Hs _]). destruct Hfits as [_ Hfs].
    unfold result_of.
    destruct (Z.eqb_spec (r_ret r) 0) as [?|_]; [done|]. cbn [negb].
    rewrite fetched_fits by lia. by rewrite getError_nonzero.
Qed.

(** C4, amended. When the reply reports a positive status-string length
    (the reply honouring the contract of the call and fitting a C int),
    the info string [mdsCommand] returns is the first [outslen] bytes of
    the native status buffer, so it has exactly that length; the bytes are
    read from the buffer before the buffer is freed. *)
Theorem mdsCommand_info (w w' : world NS) (h : positive)
    (mdsSpec : gostring) (args : list gostring) (input : goslice)
    (o : outcome (goslice * gostring * error))
    (c : mds_call) (r : mds_reply) (ob os : cptr) :
  mdsCommand L h mdsSpec args input w = (o, w') ->
  EvMdsCommand c r ob os ∈ new_events w w' ->
  reply_ok r -> reply_fits r ->
  0 < r_outslen r ->
  exists blk a buffer info err pre post,
    r_outs r = Some blk /\ os = Some a /\
    o = Ret (buffer, info, err) /\
    info = take (Z.to_nat (r_outslen r)) blk /\
    len info = r_outslen r /\
    new_events w w' =
      pre ++ EvGoStringN (Some a) (r_outslen r) :: EvFree a :: post /\
    a ∉ frees pre.
Proof.
  intros Hrun Hin Hok Hfits Hpos.
  destruct (mdsCommand_good_run L w w' h mdsSpec args input o c r ob os
              Hrun Hin Hok Hfits) as (m & _ & _ & -> & -> & -> & -> & Hevs).
  destruct Hok as (_ & _ & [Hs0 Hs]). destruct Hfits as [_ Hfs].
  specialize (Hs Hpos).
  destruct (r_outs r) as [blk|] eqn:Eouts; [|done].
  set (h3 := heap3 mdsSpec args input (heap w)) in *.
  assert (Hid : to_cint (r_outslen r) = r_outslen r).
  { apply to_cint_id. unfold is_cint, INT_MIN, INT_MAX in *. lia. }
  assert (Hos : exists a, outs_ptr r h3 = Some a).
  { unfold outs_ptr. rewrite Eouts. cbn. eauto. }
  destruct Hos as [a Hos].
  exists blk, a.
  exists (result_of r).1.1, (take (Z.to_nat (r_outslen r)) blk), (result_of r).2.
  exists (marshal_events mdsSpec args input (heap w)
          ++ [EvMdsCommand (call_at m mdsSpec args input (heap w)) r
                (outbuf_ptr r h3) (outs_ptr r h3)]).
  eexists. split; [done|]. split; [done|]. split; [|split; [done|split; [|split]]].
  - f_equal. unfold result_of, fetched. rewrite Eouts.
    destruct (Z.ltb_spec 0 (r_outslen r)) as [_|?]; [|lia].
    rewrite Hid. cbn [copied]. by destruct (negb (r_ret r =? 0)).
  - unfold len. rewrite length_take. unfold len in Hs. lia.
  - rewrite Hevs. unfold run_events. fold h3.
    rewrite <- app_assoc. cbn [app]. do 2 f_equal.
    unfold copy_events, fetch_events at 1.
    destruct (Z.ltb_spec 0 (r_outslen r)) as [_|?]; [|lia].
    rewrite Hid. destruct (Z.eqb_spec (r_outslen r) 0) as [?|_]; [lia|].
    rewrite Hos. rewrite <- !app_assoc. cbn [app]. reflexivity.
  - rewrite frees_app, frees_marshal. cbn. apply not_elem_of_nil.
Qed.

(** C5. When the reply of the foreign call reports a zero output-buffer
    length, [C.GoBytes] never reads through the output-buffer pointer and
    any result that [mdsCommand] returns has a nil payload; for a reply
    that honours the contract of the call and fits a C int, [mdsCommand]
    does return, with a nil payload. *)
Theorem mdsCommand_empty_payload (w w' : world NS) (h : positive)
    (mdsSpec : gostring) (args : list gostring) (input : goslice)
    (o : outcome (goslice * gostring * error))
    (c : mds_call) (r : mds_reply) (ob os : cptr) :
  mdsCommand L h mdsSpec args input w = (o, w') ->
  EvMdsCommand c r ob os ∈ new_events w w' ->
  r_outbuflen r = 0 ->
  (forall p n, EvGoBytes p n ∉ new_events w w') /\
  (forall buffer info err, o = Ret (buffer, info, err) -> buffer = None) /\
  (reply_ok r -> reply_fits r -> exists info err, o = Ret (None, info, err)).
Proof.
  intros Hrun Hin Hzero. split; [|split].
  - replace w' with (mdsCommand L h mdsSpec args input w).2 in * by by rewrite Hrun.
    apply mdsCommand_call_event in Hin as (m & Hlive & Hargs & _ & -> & _ & _).
    destruct (mdsCommand_reaches_call L w h m mdsSpec args input Hlive Hargs)
      as (post & tail & -> & Hpost & Htail).
    cbv zeta in Hpost. rewrite Hzero in Hpost.
    intros p n Hb.
    apply elem_of_app in Hb as [Hb|Hb].
    { by apply marshal_events_CString in Hb as (? & ? & ?). }
    apply elem_of_cons in Hb as [?|Hb]; [done|].
    apply elem_of_app in Hb as [Hb|Hb]; by apply copy_not_GoBytes in Hb.
  - intros buffer info err ->.
    replace w' with (mdsCommand L h mdsSpec args input w).2 in Hin by by rewrite Hrun.
    apply mdsCommand_call_event in Hin as (m & Hlive & _ & _ & -> & _ & _).
    by apply (mdsCommand_result L w w' h m mdsSpec args input _ Hlive Hrun).
  - intros Hok Hfits.
    destruct (mdsCommand_good_run L w w' h mdsSpec args input o c r ob os
                Hrun Hin Hok Hfits) as (m & _ & _ & _ & _ & _ & -> & _).
    unfold result_of, payload. rewrite Hzero. cbn [Z.ltb Z.compare].
    destruct (negb (r_ret r =? 0)); eauto.
Qed.

(** C8. The input-buffer length that crosses the boundary is the byte
    length of the caller's input payload, zero for a nil payload; the
    buffer pointer that goes with it is the [C.CString] copy of the whole
    payload.  The length is [len(inputBuffer)], not the C length of the
    copy, so zero bytes inside the payload do not shorten it. *)
Theorem mdsCommand_input_length (w w' : world NS) (h : positive)
    (mdsSpec : gostring) (args : list gostring) (input : goslice)
    (o : outcome (goslice * gostring * error))
    (c : mds_call) (r : mds_reply) (ob os : cptr) :
  len_slice input <= GO_INT_MAX ->
  mdsCommand L h mdsSpec args input w = (o, w') ->
  EvMdsCommand c r ob os ∈ new_events w w' ->
  c_inbuflen c = Z.of_nat (length (string_of_slice input)) /\
  (input = None -> c_inbuflen c = 0) /\
  exists a, c_inbuf c = Some a /\
            (a, string_of_slice input) ∈ allocations (new_events w w').
Proof.
  intros Hlen Hrun Hin.
  replace w' with (mdsCommand L h mdsSpec args input w).2 in * by by rewrite Hrun.
  pose proof Hin as Hin'.
  apply mdsCommand_call_event in Hin' as (m & Hlive & Hargs & -> & _ & _ & _).
  assert (Hsz : c_inbuflen (call_at m mdsSpec args input (heap w))
                = Z.of_nat (length (string_of_slice input))).
  { cbn [call_at c_inbuflen]. apply to_size_t_id.
    unfold is_size_t, SIZE_MAX, GO_INT_MAX, len_slice, len in *. lia. }
  split; [exact Hsz|]. split.
  { intros ->. by rewrite Hsz. }
  exists (in_addr mdsSpec args (heap w)). split; [done|].
  destruct (mdsCommand_reaches_call L w h m mdsSpec args input Hlive Hargs)
    as (post & tail & -> & _).
  rewrite allocations_app, allocations_marshal.
  apply elem_of_app. left. right. apply elem_of_app. right. by left.
Qed.

(** C9. On a live handle, [mdsCommand] with no argument does not return:
    it panics with index 0 out of range for length 0, at [&argv[0]].  No
    error value is produced and nothing crosses the boundary. *)
Theorem mdsCommand_no_args_panics (w w' : world NS) (h : positive) (m : MountInfo)
    (mdsSpec : gostring) (input : goslice)
    (o : outcome (goslice * gostring * error)) :
  gostore w !! h = Some m ->
  mdsCommand L h mdsSpec [] input w = (o, w') ->
  o = Panic (IndexOutOfRange 0 0) /\
  (forall c r ob os, EvMdsCommand c r ob os ∉ new_events w w').
Proof.
  intros Hlive Hrun. split.
  - set (a_spec := spec_addr (heap w)).
    set (a_in := in_addr mdsSpec [] (heap w)).
    set (w3 := MkWorld (gostore w) (heap3 mdsSpec [] input (heap w)) (native w)
                 ((trace w ++ [EvCString a_spec mdsSpec])
                  ++ [EvCString a_in (string_of_slice input)])).
    assert (Hcall : mdsCommand_call L h (Some a_spec) [] (len (@nil gostring))
                      (Some a_in) (len_slice input) w3
                    = (Panic (IndexOutOfRange 0 0), w3)).
    { unfold mdsCommand_call, bind, load_mount. cbn [gostore w3]. by rewrite Hlive. }
    pose proof (free_live a_in _ w3 (in_live_3 mdsSpec [] input (heap w))) as Hfin.
    set (w4 := MkWorld (gostore w3) (delete a_in (heap w3)) (native w3)
                 (trace w3 ++ [EvFree a_in])) in *.
    assert (Hfspec : free (Some a_spec) w4 =
                     (Ret tt, MkWorld (gostore w4) (delete a_spec (heap w4)) (native w4)
                                (trace w4 ++ [EvFree a_spec]))).
    { eapply free_live. cbn [heap w4 w3].
      rewrite lookup_delete_ne by apply in_not_spec. apply spec_live_3. }
    unfold mdsCommand in Hrun. unfold bind at 1 in Hrun. unfold CString at 1 in Hrun.
    erewrite defer_panic in Hrun; [| |exact Hfspec].
    + by injection Hrun as <- _.
    + unfold bind at 1. cbn [mapM]. unfold ret at 1.
      eapply defer_panic; [|reflexivity].
      unfold bind at 1. unfold CString at 1.
      eapply defer_panic; [|exact Hfin].
      exact Hcall.
  - intros c r ob os Hin.
    replace w' with (mdsCommand L h mdsSpec [] input w).2 in Hin by by rewrite Hrun.
    by apply mdsCommand_call_event in Hin as (? & _ & ? & _).
Qed.

(** C10. On a live handle, [IsMounted] returns a boolean, and it is [true]
    exactly when [ceph_is_mounted] returned 1: every other value, negative
    ones included, reads as not mounted, and no error comes out. *)
Theorem IsMounted_spec (w w' : world NS) (h : positive) (m : MountInfo)
    (o : outcome bool) :
  gostore w !! h = Some m ->
  IsMounted L h w = (o, w') ->
  exists b, o = Ret b /\
            (b = true <-> (ceph_is_mounted L (mount m) (native w)).1 = 1).
Proof.
  intros Hlive Hrun.
  unfold IsMounted, bind, load_mount, call_ceph_is_mounted, ret in Hrun.
  rewrite Hlive in Hrun.
  destruct (ceph_is_mounted L (mount m) (native w)) as [r s]. cbn [fst].
  injection Hrun as <- _. exists (r =? 1). split; [done|].
  apply Z.eqb_eq.
Qed.

(** C6. Whatever the handle, every [ceph_mount] call made by [Mount] has
    a null root path; on a live handle [Mount] makes exactly one such
    call, on the handle's mount context. *)
Theorem Mount_null_root (w w' : world NS) (h : positive) (o : outcome error) :
  Mount L h w = (o, w') ->
  (forall cm root, EvMount cm root ∈ new_events w w' -> root = NULL) /\
  (forall m, gostore w !! h = Some m -> new_events w w' = [EvMount (mount m) NULL]).
Proof.
  intros Hrun.
  unfold Mount, bind, load_mount, call_ceph_mount, ret in Hrun.
  destruct (gostore w !! h) as [m|] eqn:Hlive.
  - destruct (ceph_mount L (mount m) NULL (heap w) (native w)) as [r s].
    injection Hrun as _ <-.
    assert (Hev : new_events w (emit (EvMount (mount m) NULL) (set_native s w))
                  = [EvMount (mount m) NULL]) by by apply new_events_app.
    rewrite Hev. split.
    + intros cm root Hin. apply list_elem_of_singleton in Hin. by injection Hin.
    + by intros m' [= <-].
  - injection Hrun as _ <-.
    assert (Hev : new_events w w = []).
    { apply new_events_app. by rewrite app_nil_r. }
    rewrite Hev. split; [|done].
    intros cm root Hin. by apply elem_of_nil in Hin.
Qed.

(** C7. When [ceph_mount] returns a non-zero result, [Mount] on a live
    handle returns an error and the handle still holds the mount context
    it held before; the whole Go store is as it was. *)
Theorem Mount_failure_keeps_handle (w w' : world NS) (h : positive) (m : MountInfo)
    (o : outcome error) :
  gostore w !! h = Some m ->
  (ceph_mount L (mount m) NULL (heap w) (native w)).1 <> 0 ->
  Mount L h w = (o, w') ->
  (exists err, o = Ret (Some err)) /\
  mount <$> gostore w' !! h = Some (mount m) /\
  gostore w' = gostore w.
Proof.
  intros Hlive Hfail Hrun.
  unfold Mount, bind, load_mount, call_ceph_mount, ret in Hrun.
  rewrite Hlive in Hrun.
  destruct (ceph_mount L (mount m) NULL (heap w) (native w)) as [r s].
  cbn [fst] in Hfail. injection Hrun as <- <-.
  split; [|split].
  - unfold getError. destruct (Z.eqb_spec r 0) as [?|_]; [done|]. eauto.
  - cbn [emit set_native gostore]. by rewrite Hlive.
  - done.
Qed.

End Claims.

(** * The claims on the test double *)

Lemma err_reply_ok : reply_ok err_reply /\ reply_fits err_reply.
Proof.
  unfold reply_ok, reply_fits, holds, is_cint, INT_MIN, INT_MAX, len. cbn.
  repeat split; lia.
Qed.


(** The scenario of the specification: target mds.0, one argument, no
    input payload, against a boundary that succeeds with an output buffer
    and no status. *)
Example MdsCommand_status :
  (MdsCommand (fake_lib 0 1 ok_reply) 1%positive (bytes "mds.0") [bytes "status"]
     fake_world).1
  = Ret (Some (bytes "state=up"), [], None).
Proof. vm_compute. reflexivity. Qed.


(** ** A status string longer than a C int can count *)

Lemma big_status_len : len big_status = big_len.
Proof.
  unfold len, big_status. rewrite repeat_length.
  apply Z2Nat.id. unfold big_len. lia.
Qed.

Lemma big_len_to_cint : to_cint big_len = 3.
Proof. reflexivity. Qed.

(** With a status buffer of [2^32 + 3] bytes, [C.int(outslen)] is 3 and
    only three bytes come back. *)
Lemma truncated_info_run (blk : list byte) :
  len blk = big_len ->
  let r := MkMdsReply 0 None 0 (Some blk) big_len in
  exists w',
    mdsCommand (fake_lib 0 1 r) 1%positive (bytes "mds.0") [bytes "status"] None
      fake_world
    = (Ret (None, take 3 blk, None), w') /\
    EvMdsCommand (call_at (MkMountInfo (Some 7%positive)) (bytes "mds.0")
                    [bytes "status"] None ∅) r None (Some 5%positive)
    ∈ new_events fake_world w'.
Proof.
  intros Hlen r.
  destruct (mdsCommand_ok (fake_lib 0 1 r) fake_world 1%positive
              (MkMountInfo (Some 7%positive)) (bytes "mds.0") [bytes "status"] None)
    as (hf & s & Hrun).
  - reflexivity.
  - discriminate.
  - intros _. cbn [fake_lib ceph_mds_command fst r r_outs r_outslen].
    rewrite big_len_to_cint. split; [lia|]. exists blk. split; [done|].
    rewrite Hlen. unfold big_len. lia.
  - intros Hpos. cbn [fake_lib ceph_mds_command fst r r_outbuflen] in Hpos. lia.
  - cbn [fake_lib ceph_mds_command fst] in Hrun.
    eexists. split.
    + rewrite Hrun. f_equal.
    + erewrite new_events_app; [|reflexivity].
      unfold run_events. apply elem_of_app. right.
      apply list_elem_of_here.
Qed.

Lemma err_run_call :
  EvMdsCommand err_call err_reply None (Some 6%positive)
  ∈ new_events fake_world
      (mdsCommand (fake_lib 0 1 err_reply) 1%positive (bytes "mds.0")
         [bytes "a"; bytes "b"] (Some (bytes "x")) fake_world).2.
Proof. apply list_elem_of_In. vm_compute. do 4 right. left. reflexivity. Qed.

Lemma mdsCommand_failure_witness :
  let run := mdsCommand (fake_lib 0 1 err_reply) 1%positive (bytes "mds.0")
               [bytes "a"; bytes "b"] (Some (bytes "x")) fake_world in
  (forall buffer info err,
     run.1 = Ret (buffer, info, err) ->
     buffer = None /\ info = fetched (r_outs err_reply) (r_outslen err_reply) /\
     exists e, err = Some e /\ getError (r_ret err_reply) = Some e) /\
  (reply_ok err_reply -> reply_fits err_reply ->
   run.1 = Ret (None, copied (r_outs err_reply) (r_outslen err_reply),
                Some (MkCephFSError (r_ret err_reply)))).
Proof.
  intros run.
  refine (mdsCommand_failure (fake_lib 0 1 err_reply) fake_world _ 1%positive
            (bytes "mds.0") [bytes "a"; bytes "b"] (Some (bytes "x")) _
            err_call err_reply None (Some 6%positive) _ _ _).
  - apply surjective_pairing.
  - exact err_run_call.
  - simpl. lia.
Defined.

Lemma mdsCommand_info_witness :
  let run := mdsCommand (fake_lib 0 1 err_reply) 1%positive (bytes "mds.0")
               [bytes "a"; bytes "b"] (Some (bytes "x")) fake_world in
  exists blk a buffer info err pre post,
    r_outs err_reply = Some blk /\ Some 6%positive = Some a /\
    run.1 = Ret (buffer, info, err) /\
    info = take (Z.to_nat (r_outslen err_reply)) blk /\
    len info = r_outslen err_reply /\
    new_events fake_world run.2 =
      pre ++ EvGoStringN (Some a) (r_outslen err_reply) :: EvFree a :: post /\
    a ∉ frees pre.
Proof.
  intros run.
  refine (mdsCommand_info (fake_lib 0 1 err_reply) fake_world _ 1%positive
            (bytes "mds.0") [bytes "a"; bytes "b"] (Some (bytes "x")) _
            err_call err_reply None (Some 6%positive) _ _ _ _ _).
  - apply surjective_pairing.
  - exact err_run_call.
  - exact (proj1 err_reply_ok).
  - exact (proj2 err_reply_ok).
  - simpl. lia.
Defined.

Lemma mdsCommand_empty_payload_witness :
  let run := mdsCommand (fake_lib 0 1 err_reply) 1%positive (bytes "mds.0")
               [bytes "a"; bytes "b"] (Some (bytes "x")) fake_world in
  (forall p n, EvGoBytes p n ∉ new_events fake_world run.2) /\
  (forall buffer info err, run.1 = Ret (buffer, info, err) -> buffer = None) /\
  (reply_ok err_reply -> reply_fits err_reply ->
   exists info err, run.1 = Ret (None, info, err)).
Proof.
  intros run.
  refine (mdsCommand_empty_payload (fake_lib 0 1 err_reply) fake_world _ 1%positive
            (bytes "mds.0") [bytes "a"; bytes "b"] (Some (bytes "x")) _
            err_call err_reply None (Some 6%positive) _ _ _).
  - apply surjective_pairing.
  - exact err_run_call.
  - reflexivity.
Defined.

Lemma mdsCommand_input_length_witness :
  let run := mdsCommand (fake_lib 0 1 ok_reply) 1%positive (bytes "mds.0")
               [bytes "status"] nul_payload fake_world in
  let c := MkMdsCall (Some 7%positive) (Some 2%positive) [Some 3%positive] 1
             (Some 4%positive) 3 in
  c_inbuflen c = 3 /\
  (nul_payload = None -> c_inbuflen c = 0) /\
  exists a, c_inbuf c = Some a /\
            (a, [x61; x00; x62]) ∈ allocations (new_events fake_world run.2).
Proof.
  intros run c.
  refine (mdsCommand_input_length (fake_lib 0 1 ok_reply) fake_world _ 1%positive
            (bytes "mds.0") [bytes "status"] nul_payload _
            c ok_reply (Some 5%positive) None _ _ _).
  - unfold GO_INT_MAX. vm_compute. discriminate.
  - apply surjective_pairing.
  - apply list_elem_of_In. vm_compute. do 3 right. left. reflexivity.
Defined.

Lemma mdsCommand_no_args_panics_witness :
  let run := mdsCommand (fake_lib 0 1 ok_reply) 1%positive (bytes "mds.0") []
               None fake_world in
  run.1 = Panic (IndexOutOfRange 0 0) /\
  (forall c r ob os, EvMdsCommand c r ob os ∉ new_events fake_world run.2).
Proof.
  intros run.
  refine (mdsCommand_no_args_panics (fake_lib 0 1 ok_reply) fake_world _ 1%positive
            (MkMountInfo (Some 7%positive)) (bytes "mds.0") None _ _ _).
  - reflexivity.
  - apply surjective_pairing.
Defined.

Lemma IsMounted_spec_witness :
  let run := IsMounted (fake_lib 0 (-107) ok_reply) 1%positive fake_world in
  exists b, run.1 = Ret b /\ (b = true <-> -107 = 1).
Proof.
  intros run.
  refine (IsMounted_spec (fake_lib 0 (-107) ok_reply) fake_world _ 1%positive
            (MkMountInfo (Some 7%positive)) _ _ _).
  - reflexivity.
  - apply surjective_pairing.
Defined.

Lemma Mount_null_root_witness :
  let run := Mount (fake_lib 0 1 ok_reply) 1%positive fake_world in
  (forall cm root, EvMount cm root ∈ new_events fake_world run.2 -> root = NULL) /\
  (forall m, gostore fake_world !! 1%positive = Some m ->
             new_events fake_world run.2 = [EvMount (mount m) NULL]).
Proof.
  intros run.
  refine (Mount_null_root (fake_lib 0 1 ok_reply) fake_world _ 1%positive _ _).
  apply surjective_pairing.
Defined.

Lemma Mount_failure_keeps_handle_witness :
  let run := Mount (fake_lib (-2) 0 ok_reply) 1%positive fake_world in
  (exists err, run.1 = Ret (Some err)) /\
  mount <$> gostore run.2 !! 1%positive = Some (Some 7%positive) /\
  gostore run.2 = gostore fake_world.
Proof.
  intros run.
  refine (Mount_failure_keeps_handle (fake_lib (-2) 0 ok_reply) fake_world _
            1%positive (MkMountInfo (Some 7%positive)) _ _ _ _).
  - reflexivity.
  - simpl. lia.
  - apply surjective_pairing.
Defined.

(** C4 as stated fails: the reply below honours the contract of the call
    and reports a positive status length, [2^32 + 3], yet the info string
    that comes back has 3 bytes. *)
Lemma mdsCommand_info_counterexample :
  exists (w' : world unit) (c : mds_call) (ob os : cptr)
         (buffer : goslice) (info : gostring) (err : error),
    mdsCommand (fake_lib 0 1 big_reply) 1%positive (bytes "mds.0")
      [bytes "status"] None fake_world
    = (Ret (buffer, info, err), w') /\
    EvMdsCommand c big_reply ob os ∈ new_events fake_world w' /\
    reply_ok big_reply /\
    0 < r_outslen big_reply /\
    len info = 3 /\
    len info <> r_outslen big_reply.
Proof.
  destruct (truncated_info_run big_status big_status_len) as (w' & Hrun & Hin).
  assert (Hthree : len (take 3 big_status) = 3).
  { unfold len. rewrite length_take.
    pose proof big_status_len as Hl. unfold len, big_len in Hl. lia. }
  exists w', (call_at (MkMountInfo (Some 7%positive)) (bytes "mds.0")
                [bytes "status"] None ∅), None, (Some 5%positive),
    None, (take 3 big_status), None.
  split; [exact Hrun|]. split; [exact Hin|]. split; [|split; [|split]].
  - unfold reply_ok, holds, big_reply, is_cint, INT_MIN, INT_MAX.
    cbn [r_ret r_outbuf r_outbuflen r_outs r_outslen].
    rewrite big_status_len. unfold big_len. lia.
  - cbn [big_reply r_outslen]. unfold big_len. lia.
  - exact Hthree.
  - rewrite Hthree. cbn [big_reply r_outslen]. unfold big_len. lia.
Qed.

(** ** Lengths that are not a C int *)

Lemma half_block_len : len half_block = half_len.
Proof.
  unfold len, half_block. rewrite repeat_length.
  apply Z2Nat.id. unfold half_len. lia.
Qed.


(** With an output buffer of [2^31] bytes, [C.int(outbuflen)] is negative:
    [C.GoBytes] panics and nothing is returned. *)
Lemma refused_run (blk : list byte) :
  let r := MkMdsReply (-22) (Some blk) half_len None 0 in
  let run := mdsCommand (fake_lib 0 1 r) 1%positive (bytes "mds.0")
               [bytes "status"] None fake_world in
  run.1 = Panic LengthOutOfRange /\
  In (EvMdsCommand status_call r (Some 5%positive) None) (new_events fake_world run.2).
Proof. vm_compute. split; [reflexivity|]. do 3 right. left. reflexivity. Qed.

Lemma half_replies_ok : reply_ok killed_reply /\ reply_ok refused_reply.
Proof.
  unfold reply_ok, holds, killed_reply, refused_reply, is_cint, INT_MIN, INT_MAX.
  cbn [r_ret r_outbuf r_outbuflen r_outs r_outslen].
  rewrite half_block_len. unfold half_len. lia.
Qed.


(** C3 as stated fails: the reply below honours the contract of the call
    and carries a non-zero result with an output buffer of [2^31] bytes;
    [mdsCommand] panics in [C.GoBytes] and returns nothing. *)
Lemma mdsCommand_failure_counterexample :
  exists (w' : world unit) (o : outcome (goslice * gostring * error))
         (c : mds_call) (ob os : cptr),
    mdsCommand (fake_lib 0 1 refused_reply) 1%positive (bytes "mds.0")
      [bytes "status"] None fake_world = (o, w') /\
    EvMdsCommand c refused_reply ob os ∈ new_events fake_world w' /\
    reply_ok refused_reply /\
    r_ret refused_reply <> 0 /\
    o = Panic LengthOutOfRange /\
    ~ exists buffer info err, o = Ret (buffer, info, err).
Proof.
  destruct (refused_run half_block) as (Ho & Hin).
  eexists _, _, status_call, (Some 5%positive), None.
  split; [apply surjective_pairing|].
  split; [apply list_elem_of_In; exact Hin|].
  split; [exact (proj2 half_replies_ok)|].
  split; [done|]. split; [exact Ho|].
  intros (buffer & info & err & Heq).
  change (mdsCommand (fake_lib 0 1 refused_reply) 1%positive (bytes "mds.0")
            [bytes "status"] None fake_world).1
    with (mdsCommand (fake_lib 0 1 (MkMdsReply (-22) (Some half_block) half_len None 0))
            1%positive (bytes "mds.0") [bytes "status"] None fake_world).1 in Heq.
  rewrite Ho in Heq. discriminate.
Qed.

(** * The rest of the binding *)

(** ** Calls that marshal one string *)

Section OneString.

Context {NS : Type}.

(** The shape shared by the five path operations, for any library function
    [f]: marshal the string, load the handle, call, free, map the result. *)
Lemma path_template_run (h : positive) (s : gostring)
    (f : cptr -> cptr -> cheap -> NS -> Z * NS) (w : world NS) :
  (cPath <- CString s ;;
   defer (free cPath) (
     cm <- load_mount h ;;
     r <- call_int (f cm cPath) ;;
     ret (getError r))) w
  = match gostore w !! h with
    | Some m =>
        let rs := f (mount m) (Some (fresh_addr (heap w))) (heap_with (heap w) s)
                    (native w) in
        (Ret (getError rs.1),
         MkWorld (gostore w) (heap w) rs.2 (trace w ++ one_string_events (heap w) s))
    | None =>
        (Panic NilDereference,
         MkWorld (gostore w) (heap w) (native w)
           (trace w ++ one_string_events (heap w) s))
    end.
Proof.
  assert (Hdel : delete (fresh_addr (heap w)) (heap_with (heap w) s) = heap w).
  { unfold heap_with. apply delete_insert_id, fresh_addr_fresh. }
  assert (Hlk : heap_with (heap w) s !! fresh_addr (heap w) = Some (s ++ [x00])).
  { apply lookup_insert_eq. }
  unfold bind at 1. unfold CString at 1. unfold defer.
  unfold bind at 1. unfold load_mount at 1.
  unfold emit, set_heap. cbn [gostore heap native trace].
  fold (heap_with (heap w) s).
  destruct (gostore w !! h) as [m|].
  - unfold bind at 1. unfold call_int at 1. cbn [heap native].
    destruct (f (mount m) (Some (fresh_addr (heap w))) (heap_with (heap w) s) (native w))
      as [r s'].
    unfold ret, free, set_native, emit, set_heap.
    cbn [gostore heap native trace fst snd].
    rewrite Hlk, Hdel. unfold one_string_events. by rewrite <- app_assoc.
  - unfold free, emit, set_heap. cbn [gostore heap native trace].
    rewrite Hlk, Hdel. unfold one_string_events. by rewrite <- app_assoc.
Qed.

End OneString.

Section PathOps.

Context {NS : Type} (K : libcephfs_fs NS).

Lemma run_path_op_run (h : positive) (path : gostring) (op : path_op) (w : world NS) :
  run_path_op K h path op w
  = match gostore w !! h with
    | Some m =>
        let rs := path_call K op (mount m) (Some (fresh_addr (heap w)))
                    (heap_with (heap w) path) (native w) in
        (Ret (getError rs.1),
         MkWorld (gostore w) (heap w) rs.2
           (trace w ++ one_string_events (heap w) path))
    | None =>
        (Panic NilDereference,
         MkWorld (gostore w) (heap w) (native w)
           (trace w ++ one_string_events (heap w) path))
    end.
Proof.
  destruct op; cbn [run_path_op path_call].
  - apply (path_template_run h path (ceph_chdir K)).
  - apply (path_template_run h path (fun cm p => ceph_mkdir K cm p (to_mode_t mode))).
  - apply (path_template_run h path (ceph_rmdir K)).
  - apply (path_template_run h path (fun cm p => ceph_chmod K cm p (to_mode_t mode))).
  - apply (path_template_run h path
             (fun cm p => ceph_chown K cm p (to_cint user) (to_cint group))).
Qed.

(** X1. A path operation ([ChangeDir], [MakeDir], [RemoveDir], [Chmod],
    [Chown]) on a live handle calls its library function once, on the
    handle's context and on a fresh block holding the path and a
    terminating zero, and returns [getError] of the result.  Whatever the
    result, that block is the only allocation and it is freed once: the
    native heap ends as it started, and the Go store is untouched. *)
Theorem path_op_frees_path (w w' : world NS) (h : positive) (m : MountInfo)
    (path : gostring) (op : path_op) (o : outcome error) :
  gostore w !! h = Some m ->
  run_path_op K h path op w = (o, w') ->
  let p := fresh_addr (heap w) in
  let rs := path_call K op (mount m) (Some p) (<[p := path ++ [x00]]> (heap w))
              (native w) in
  heap w !! p = None /\
  o = Ret (getError rs.1) /\
  native w' = rs.2 /\
  new_events w w' = [EvCString p path; EvFree p] /\
  heap w' = heap w /\
  gostore w' = gostore w.
Proof.
  intros Hlive Hrun. rewrite run_path_op_run, Hlive in Hrun.
  cbv zeta in *. injection Hrun as <- <-.
  split; [apply fresh_addr_fresh|]. split; [done|]. split; [done|].
  split; [|done]. by apply new_events_app.
Qed.

(** X2. A path operation on a nil handle panics with a nil dereference
    after the path was marshaled; the deferred free still runs, so the
    native heap ends as it started, and the library is not called. *)
Theorem path_op_nil_handle (w w' : world NS) (h : positive)
    (path : gostring) (op : path_op) (o : outcome error) :
  gostore w !! h = None ->
  run_path_op K h path op w = (o, w') ->
  o = Panic NilDereference /\
  new_events w w' = [EvCString (fresh_addr (heap w)) path; EvFree (fresh_addr (heap w))] /\
  heap w' = heap w /\
  native w' = native w /\
  gostore w' = gostore w.
Proof.
  intros Hdead Hrun. rewrite run_path_op_run, Hdead in Hrun.
  injection Hrun as <- <-.
  split; [done|]. split; [|done]. by apply new_events_app.
Qed.


Lemma to_cint_uint32 (z : Z) : is_uint32 z -> to_cint z = signed32 z.
Proof.
  unfold is_uint32, UINT32_MAX, to_cint, signed32, INT_MAX. intros Hz.
  destruct (Z.leb_spec z (2 ^ 31 - 1)) as [Hle|Hgt].
  - rewrite Z.mod_small; lia.
  - replace (z + 2 ^ 31) with (z - 2 ^ 31 + 1 * 2 ^ 32) by lia.
    rewrite Z.mod_add by lia. rewrite Z.mod_small; lia.
Qed.

(** X3. [Chown] hands the user and group ids to [ceph_chown] as C ints:
    a [uint32] id up to [2^31 - 1] goes through unchanged, a larger one
    goes through as the id minus [2^32], so [4294967295] arrives as [-1]. *)
Theorem Chown_ids_as_C_ints (w w' : world NS) (h : positive) (m : MountInfo)
    (path : gostring) (user group : Z) (o : outcome error) :
  is_uint32 user -> is_uint32 group ->
  gostore w !! h = Some m ->
  Chown K h path user group w = (o, w') ->
  let p := fresh_addr (heap w) in
  let rs := ceph_chown K (mount m) (Some p) (signed32 user) (signed32 group)
              (<[p := path ++ [x00]]> (heap w)) (native w) in
  o = Ret (getError rs.1) /\ native w' = rs.2.
Proof.
  intros Hu Hg Hlive Hrun.
  change (Chown K h path user group) with (run_path_op K h path (OpChown user group))
    in Hrun.
  rewrite run_path_op_run, Hlive in Hrun. cbn [path_call] in Hrun.
  rewrite (to_cint_uint32 user Hu), (to_cint_uint32 group Hg) in Hrun.
  cbv zeta in *. by injection Hrun as <- <-.
Qed.

(** *** Paths with a zero byte *)

Lemma c_str_terminated (s : gostring) : c_str (s ++ [x00]) = Some (c_prefix s).
Proof.
  induction s as [|b s IH]; [done|].
  cbn [app c_str c_prefix]. destruct (Byte.eqb b x00); [done|]. by rewrite IH.
Qed.

Lemma c_prefix_no_zero (s : gostring) : x00 ∉ s -> c_prefix s = s.
Proof.
  induction s as [|b s IH]; [done|].
  intros Hs. apply not_elem_of_cons in Hs as [Hb Hs].
  cbn [c_prefix]. destruct (Byte.eqb b x00) eqn:E.
  - apply Byte.byte_dec_bl in E. congruence.
  - by rewrite IH.
Qed.

Lemma c_str_at_heap_with (h0 : cheap) (s : gostring) :
  c_str_at (heap_with h0 s) (Some (fresh_addr h0)) = Some (c_prefix s).
Proof.
  unfold c_str_at, heap_with. rewrite lookup_insert_eq. apply c_str_terminated.
Qed.

Lemma c_prefix_cut (path s : gostring) : cut_at_zero path s -> c_prefix path = s.
Proof.
  intros [Hs [->|[rest ->]]]; [by apply c_prefix_no_zero|].
  induction s as [|b s IH]; cbn [app c_prefix]; [done|].
  apply not_elem_of_cons in Hs as [Hb Hs].
  destruct (Byte.eqb b x00) eqn:E.
  - apply Byte.byte_dec_bl in E. congruence.
  - by rewrite IH.
Qed.

(** X4. Against a library that reads the path as a C string, a path
    operation on a live handle returns what the library answers for the
    part of the path before its first zero byte, for the whole path when
    it holds none, and leaves the library in the state that answer comes
    with: [C.CString] copies every byte of the Go string, and the reader
    stops at the first zero. *)
Theorem path_op_cuts_at_zero_byte (w w' : world NS) (h : positive) (m : MountInfo)
    (path s : gostring) (op : path_op) (o : outcome error) :
  gostore w !! h = Some m ->
  reads_c_string K op ->
  cut_at_zero path s ->
  run_path_op K h path op w = (o, w') ->
  forall p hp, c_str_at hp p = Some s ->
    let rs := path_call K op (mount m) p hp (native w) in
    o = Ret (getError rs.1) /\ native w' = rs.2.
Proof.
  intros Hlive Hreads Hcut Hrun p hp Hp. cbv zeta.
  rewrite run_path_op_run, Hlive in Hrun. cbv zeta in Hrun.
  injection Hrun as <- <-. cbn [native].
  assert (Hsame : path_call K op (mount m) (Some (fresh_addr (heap w)))
                    (<[fresh_addr (heap w) := path ++ [x00]]> (heap w)) (native w)
                  = path_call K op (mount m) p hp (native w)).
  { apply Hreads. rewrite Hp.
    change (<[fresh_addr (heap w) := path ++ [x00]]> (heap w))
      with (heap_with (heap w) path).
    by rewrite c_str_at_heap_with, (c_prefix_cut path s). }
  split.
  - exact (f_equal (fun x => Ret (getError x.1)) Hsame).
  - exact (f_equal snd Hsame).
Qed.

End PathOps.

(** ** Creating a handle *)

Lemma fresh_loc_above (g : gmap positive MountInfo) (l : positive) (m : MountInfo) :
  g !! l = Some m -> (l < fresh_loc g)%positive.
Proof.
  unfold fresh_loc. revert l m.
  refine (map_fold_weak_ind
            (fun r g => forall l m, g !! l = Some m -> (l < Pos.succ r)%positive)
            (fun k _ r => Pos.max k r) 1%positive _ _ g).
  - intros l m Hl. rewrite lookup_empty in Hl. discriminate.
  - intros k x g' r Hk IH l m Hl.
    destruct (decide (k = l)) as [->|Hne]; [lia|].
    rewrite lookup_insert_ne in Hl by done.
    specialize (IH l m Hl). lia.
Qed.

Lemma fresh_loc_fresh (g : gmap positive MountInfo) : g !! fresh_loc g = None.
Proof.
  destruct (g !! fresh_loc g) as [m|] eqn:E; [|done].
  apply fresh_loc_above in E. lia.
Qed.

Section Create.

Context {NS : Type} (K : libcephfs_fs NS).

Lemma create_template_run (f : cheap -> NS -> Z * cptr * NS) (w : world NS) :
  (mount <- new_MountInfo ;;
   r <- call_create f mount ;;
   if negb (r =? 0) then ret (None, getError r)
   else ret (Some mount, None)) w
  = let l := fresh_loc (gostore w) in
    let rcs := f (heap w) (native w) in
    (Ret (if negb (rcs.1.1 =? 0) then (None, getError rcs.1.1) else (Some l, None)),
     MkWorld (<[l := MkMountInfo rcs.1.2]> (gostore w)) (heap w) rcs.2 (trace w)).
Proof.
  cbv zeta. unfold bind at 1. unfold new_MountInfo at 1.
  unfold bind at 1. unfold call_create at 1.
  unfold set_gostore, set_native. cbn [gostore heap native trace].
  destruct (f (heap w) (native w)) as [[r cm] s]. cbn [fst snd].
  rewrite insert_insert_eq.
  by destruct (negb (r =? 0)).
Qed.

Lemma run_create_run (c : creator) (w : world NS) :
  run_create K c w
  = let l := fresh_loc (gostore w) in
    let rcs := create_call K c (heap w) (native w) in
    (Ret (if negb (rcs.1.1 =? 0) then (None, getError rcs.1.1) else (Some l, None)),
     MkWorld (<[l := MkMountInfo rcs.1.2]> (gostore w)) (heap w) rcs.2 (trace w)).
Proof. destruct c; apply create_template_run. Qed.

(** X5. [createMount] (so [CreateMount], with a null id) and
    [CreateFromRados] return either a handle and no error, when the
    library returned 0, or no handle and the error of the result.  The
    handle is a new one that holds the context the library stored; the
    handles that existed keep what they held, and nothing is allocated on
    the native heap. *)
Theorem create_result (w w' : world NS) (c : creator)
    (o : outcome (option positive * error)) :
  run_create K c w = (o, w') ->
  let l := fresh_loc (gostore w) in
  let rcs := create_call K c (heap w) (native w) in
  gostore w !! l = None /\
  (rcs.1.1 <> 0 -> exists e, o = Ret (None, Some e) /\ getError rcs.1.1 = Some e) /\
  (rcs.1.1 = 0 ->
   o = Ret (Some l, None) /\ gostore w' !! l = Some (MkMountInfo rcs.1.2)) /\
  (forall h m, gostore w !! h = Some m -> gostore w' !! h = Some m) /\
  heap w' = heap w /\
  native w' = rcs.2 /\
  trace w' = trace w.
Proof.
  intros Hrun. rewrite run_create_run in Hrun. cbv zeta in *.
  injection Hrun as <- <-. cbn [gostore heap native trace].
  split; [apply fresh_loc_fresh|]. split; [|split; [|split; [|done]]].
  - intros Hr. unfold getError.
    destruct (Z.eqb_spec (create_call K c (heap w) (native w)).1.1 0); [done|].
    cbn [negb]. eauto.
  - intros ->. split; [done|]. apply lookup_insert_eq.
  - intros h m Hh. rewrite lookup_insert_ne; [done|].
    intros <-. by rewrite fresh_loc_fresh in Hh.
Qed.

(** X6. [CreateMountWithId] hands [ceph_create] a fresh block holding the
    id and a terminating zero, and frees that block whether or not the
    creation succeeded: the native heap ends as it started.  Its result is
    that of [createMount]: a new handle on success, the error otherwise. *)
Theorem CreateMountWithId_frees_id (w w' : world NS) (id : gostring)
    (o : outcome (option positive * error)) :
  CreateMountWithId K id w = (o, w') ->
  let p := fresh_addr (heap w) in
  let l := fresh_loc (gostore w) in
  let rcs := ceph_create K (Some p) (<[p := id ++ [x00]]> (heap w)) (native w) in
  (rcs.1.1 <> 0 -> o = Ret (None, getError rcs.1.1)) /\
  (rcs.1.1 = 0 ->
   o = Ret (Some l, None) /\ gostore w' !! l = Some (MkMountInfo rcs.1.2)) /\
  new_events w w' = [EvCString p id; EvFree p] /\
  heap w' = heap w /\
  native w' = rcs.2.
Proof.
  intros Hrun. cbv zeta.
  unfold CreateMountWithId in Hrun. unfold bind at 1 in Hrun.
  unfold CString at 1 in Hrun. unfold defer in Hrun.
  change (createMount K ?i) with (run_create K (ByCreate i)) in Hrun.
  rewrite run_create_run in Hrun. cbv zeta in Hrun.
  unfold free, emit, set_heap in Hrun.
  cbn [gostore heap native trace create_call] in Hrun.
  rewrite lookup_insert_eq in Hrun.
  rewrite delete_insert_id in Hrun by apply fresh_addr_fresh.
  injection Hrun as <- <-. cbn [gostore heap native trace].
  split; [|split; [|split; [|done]]].
  - intros Hr. destruct (Z.eqb_spec (ceph_create K (Some (fresh_addr (heap w)))
      (<[fresh_addr (heap w):=id ++ [x00]]> (heap w)) (native w)).1.1 0); done.
  - intros ->. split; [done|]. apply lookup_insert_eq.
  - apply new_events_app. cbn [trace]. by rewrite <- app_assoc.
Qed.

End Create.

(** ** Reading the current directory *)

Lemma c_str_Some_1 (blk s : list byte) :
  c_str blk = Some s -> (x00 ∉ s) /\ exists rest, blk = s ++ x00 :: rest.
Proof.
  revert s. induction blk as [|b blk IH]; intros s; cbn [c_str]; [done|].
  destruct (Byte.eqb b x00) eqn:E.
  - apply Byte.byte_dec_bl in E as ->. intros [= <-].
    split; [apply not_elem_of_nil|]. by exists blk.
  - assert (Hb : b <> x00) by (intros ->; by rewrite Byte.byte_dec_lb in E).
    destruct (c_str blk) as [s'|]; [|done]. intros [= <-].
    destruct (IH s' eq_refl) as (Hs' & rest & ->). split.
    + intros [?|?]%elem_of_cons; [congruence|done].
    + by exists rest.
Qed.

Lemma c_str_Some_2 (s rest : list byte) :
  x00 ∉ s -> c_str (s ++ x00 :: rest) = Some s.
Proof.
  induction s as [|b s IH]; intros Hs; [done|].
  apply not_elem_of_cons in Hs as [Hb Hs]. cbn [app c_str].
  destruct (Byte.eqb b x00) eqn:E.
  - apply Byte.byte_dec_bl in E. congruence.
  - by rewrite IH.
Qed.

Lemma c_str_Some (blk s : list byte) :
  c_str blk = Some s <-> (x00 ∉ s) /\ exists rest, blk = s ++ x00 :: rest.
Proof.
  split; [apply c_str_Some_1|]. intros (Hs & rest & ->). by apply c_str_Some_2.
Qed.

Lemma c_str_None (blk : list byte) : c_str blk = None <-> x00 ∉ blk.
Proof.
  induction blk as [|b blk IH]; cbn [c_str].
  - split; [intros _; apply not_elem_of_nil|done].
  - destruct (Byte.eqb b x00) eqn:E.
    + apply Byte.byte_dec_bl in E as ->. split; [done|].
      intros H. exfalso. apply H. by left.
    + assert (Hb : b <> x00) by (intros ->; by rewrite Byte.byte_dec_lb in E).
      destruct (c_str blk) as [s'|].
      * split; [done|]. intros H. exfalso.
        assert (x00 ∉ blk) as Hn by (intros ?; apply H; by right).
        by apply IH in Hn.
      * split; [|done]. intros _.
        intros [?|?]%elem_of_cons; [congruence|]. by apply (proj1 IH).
Qed.

Section Lifecycle.

Context {NS : Type} (K : libcephfs_fs NS).

(** X7. On a live handle [CurrentDir] returns the empty string when
    [ceph_getcwd] returns [NULL], and otherwise the bytes of the library's
    string before its first zero byte, so the result holds no zero byte.
    Nothing is allocated or freed and the Go store is untouched. *)
Theorem CurrentDir_result (w w' : world NS) (h : positive) (m : MountInfo)
    (o : outcome gostring) :
  gostore w !! h = Some m ->
  CurrentDir K h w = (o, w') ->
  let ps := ceph_getcwd K (mount m) (native w) in
  match ps.1 with
  | None => o = Ret []
  | Some blk =>
      x00 ∈ blk ->
      exists s rest, o = Ret s /\ blk = s ++ x00 :: rest /\ x00 ∉ s
  end /\
  native w' = ps.2 /\
  heap w' = heap w /\
  gostore w' = gostore w /\
  trace w' = trace w.
Proof.
  intros Hlive Hrun. cbv zeta.
  unfold CurrentDir, bind, load_mount in Hrun. rewrite Hlive in Hrun.
  destruct (ceph_getcwd K (mount m) (native w)) as [[blk|] s]; cbn [fst snd].
  - unfold GoString in Hrun. destruct (c_str blk) as [str|] eqn:Ec.
    + injection Hrun as <- <-. split; [|done].
      intros _. apply c_str_Some in Ec as (Hs & rest & ->). by exists str, rest.
    + injection Hrun as <- <-. split; [|done].
      intros Hin. apply c_str_None in Ec. done.
  - by injection Hrun as <- <-.
Qed.

Lemma run_life_op_run (h : positive) (op : life_op) (w : world NS) :
  run_life_op K h op w
  = match gostore w !! h with
    | Some m =>
        let rs := life_call K op (mount m) (heap w) (native w) in
        (Ret (getError rs.1), MkWorld (gostore w) (heap w) rs.2 (trace w))
    | None => (Panic NilDereference, w)
    end.
Proof.
  destruct op; cbn [run_life_op life_call];
    unfold ReadDefaultConfigFile, Unmount, Release, SyncFs, bind, load_mount, call_int;
    (destruct (gostore w !! h) as [m|]; [|done]);
    match goal with |- context [let '(_, _) := ?x in _] => by destruct x end.
Qed.

(** X8. [ReadDefaultConfigFile], [Unmount], [Release] and [SyncFs] return
    [getError] of what the library returned, so no error exactly when it
    returned 0; on a nil handle they panic before the library is called.
    They allocate nothing, free nothing and leave the Go store as it
    was. *)
Theorem life_op_result (w w' : world NS) (h : positive) (op : life_op)
    (o : outcome error) :
  run_life_op K h op w = (o, w') ->
  match gostore w !! h with
  | Some m =>
      let rs := life_call K op (mount m) (heap w) (native w) in
      o = Ret (getError rs.1) /\ (o = Ret None <-> rs.1 = 0) /\ native w' = rs.2
  | None => o = Panic NilDereference /\ native w' = native w
  end /\
  gostore w' = gostore w /\
  heap w' = heap w /\
  trace w' = trace w.
Proof.
  intros Hrun. rewrite run_life_op_run in Hrun.
  destruct (gostore w !! h) as [m|]; cbv zeta in *.
  all: injection Hrun as <- <-.
  - split; [|done]. split; [done|]. split; [|done].
    unfold getError.
    destruct (Z.eqb_spec (life_call K op (mount m) (heap w) (native w)).1 0) as [->|?].
    + done.
    + split; [done|]. intros ?. done.
  - done.
Qed.

Lemma Mount_run (L : libcephfs NS) (h : positive) (w : world NS) :
  Mount L h w
  = match gostore w !! h with
    | Some m =>
        let rs := ceph_mount L (mount m) NULL (heap w) (native w) in
        (Ret (getError rs.1),
         MkWorld (gostore w) (heap w) rs.2 (trace w ++ [EvMount (mount m) NULL]))
    | None => (Panic NilDereference, w)
    end.
Proof.
  unfold Mount, bind, load_mount, call_ceph_mount.
  destruct (gostore w !! h) as [m|]; [|done].
  by destruct (ceph_mount L (mount m) NULL (heap w) (native w)).
Qed.

(** X9. None of [ReadDefaultConfigFile], [Unmount], [Release] and
    [SyncFs] changes what the handle holds, whatever the library returned:
    a [Mount] that follows calls [ceph_mount] once, on the same context
    and with a null root.  In particular [Release] does not clear the
    handle. *)
Theorem life_op_then_Mount (L : libcephfs NS) (w w1 w2 : world NS) (h : positive)
    (m : MountInfo) (op : life_op) (o1 o2 : outcome error) :
  gostore w !! h = Some m ->
  run_life_op K h op w = (o1, w1) ->
  Mount L h w1 = (o2, w2) ->
  gostore w1 !! h = Some m /\
  new_events w1 w2 = [EvMount (mount m) NULL] /\
  o2 = Ret (getError (ceph_mount L (mount m) NULL (heap w) (native w1)).1).
Proof.
  intros Hlive Hrun1 Hrun2. rewrite run_life_op_run, Hlive in Hrun1.
  cbv zeta in Hrun1. injection Hrun1 as <- <-.
  rewrite Mount_run in Hrun2. cbn [gostore heap native trace] in Hrun2 |- *.
  rewrite Hlive in Hrun2. cbv zeta in Hrun2. injection Hrun2 as <- <-.
  split; [done|]. split; [|done]. by apply new_events_app.
Qed.

End Lifecycle.

(** ** The native heap across [mdsCommand] *)

Lemma alloc_strings_other (ss : list gostring) (h : cheap) (q : addr) :
  q ∉ (alloc_strings ss h).1 -> (alloc_strings ss h).2 !! q = h !! q.
Proof.
  revert h. induction ss as [|s ss IH]; intros h; cbn [alloc_strings]; [done|].
  specialize (IH (<[fresh_addr h := s ++ [x00]]> h)).
  destruct (alloc_strings ss _) as [ps h']. cbn [fst snd] in *.
  intros [Hne Hq]%not_elem_of_cons. rewrite (IH Hq).
  by apply lookup_insert_ne.
Qed.

Section Frame.

Context {NS : Type} (L : libcephfs NS).

(** Freeing distinct live blocks removes exactly those. *)
Lemma forM_free_gone (ps : list addr) (w : world NS) :
  NoDup ps ->
  (forall p, p ∈ ps -> is_Some (heap w !! p)) ->
  exists h',
    forM_ free (Some <$> ps) w =
      (Ret tt, MkWorld (gostore w) h' (native w) (trace w ++ (EvFree <$> ps))) /\
    (forall q, q ∉ ps -> h' !! q = heap w !! q) /\
    (forall q, q ∈ ps -> h' !! q = None).
Proof.
  revert w. induction ps as [|p ps IH]; intros w Hnd Hlive.
  - exists (heap w). cbn. unfold ret. rewrite app_nil_r, world_eta.
    split; [done|]. split; [done|]. by intros q ?%elem_of_nil.
  - apply NoDup_cons in Hnd as [Hp Hnd].
    destruct (Hlive p) as [b Hb]; [by left|].
    destruct (IH (emit (EvFree p) (set_heap (delete p (heap w)) w)) Hnd)
      as (h' & Hrun & Hkeep & Hgone).
    { intros q Hq. cbn. rewrite lookup_delete_ne; [apply Hlive; by right|].
      by intros ->. }
    exists h'. split; [|split].
    + rewrite !fmap_cons. cbn [forM_]. unfold bind at 1. unfold free at 1.
      rewrite Hb, Hrun. cbn [emit set_heap gostore heap native trace].
      by rewrite <- app_assoc.
    + intros q [Hne Hq]%not_elem_of_cons. rewrite (Hkeep q Hq). cbn.
      by apply lookup_delete_ne.
    + intros q [->|Hq]%elem_of_cons; [|by apply Hgone].
      rewrite (Hkeep p Hp). cbn. apply lookup_delete_eq.
Qed.

Lemma defer_keep {A : Type} (d : M NS unit) (body : M NS A) (w w1 w2 : world NS)
    (o : outcome A) :
  body w = (o, w1) -> o <> Crash -> d w1 = (Ret tt, w2) -> defer d body w = (o, w2).
Proof. intros Hb Ho Hd. unfold defer. rewrite Hb, Hd. by destruct o. Qed.

(** The three deferred frees, behind a call part that did not crash and
    left the marshaled blocks alone: they free the [N+2] blocks and
    nothing else. *)
Lemma mdsCommand_frame (w w4 : world NS) (h : positive)
    (mdsSpec : gostring) (args : list gostring) (input : goslice)
    (o : outcome (goslice * gostring * error)) :
  let a_spec := spec_addr (heap w) in
  let a_args := arg_addrs mdsSpec args (heap w) in
  let a_in := in_addr mdsSpec args (heap w) in
  let h3 := heap3 mdsSpec args input (heap w) in
  mdsCommand_call L h (Some a_spec) (Some <$> a_args) (len args) (Some a_in)
    (len_slice input)
    (MkWorld (gostore w) h3 (native w)
       (trace w ++ marshal_events mdsSpec args input (heap w)))
  = (o, w4) ->
  o <> Crash ->
  (forall q x, h3 !! q = Some x -> heap w4 !! q = Some x) ->
  exists hf,
    mdsCommand L h mdsSpec args input w =
    (o, MkWorld (gostore w4) hf (native w4)
          (trace w4 ++ EvFree a_in :: (EvFree <$> a_args) ++ [EvFree a_spec])) /\
    forall q, hf !! q = if decide (q ∈ a_spec :: a_args ++ [a_in]) then None
                        else heap w4 !! q.
Proof.
  intros a_spec a_args a_in h3 Hcall Ho Hkeep.
  assert (Hfin : free (Some a_in) w4 =
                 (Ret tt, MkWorld (gostore w4) (delete a_in (heap w4)) (native w4)
                            (trace w4 ++ [EvFree a_in]))).
  { eapply free_live. apply Hkeep, in_live_3. }
  set (w5 := MkWorld (gostore w4) (delete a_in (heap w4)) (native w4)
               (trace w4 ++ [EvFree a_in])) in *.
  destruct (forM_free_gone a_args w5) as (h6 & Hfargs & Hkeep6 & Hgone6).
  { apply alloc_strings_NoDup. }
  { intros p Hp. cbn [heap w5]. rewrite lookup_delete_ne.
    - destruct (args_live_3 mdsSpec args input (heap w) p Hp) as [b Hb'].
      exists b. by apply Hkeep.
    - intros <-. by apply (in_not_arg mdsSpec args (heap w)). }
  set (w6 := MkWorld (gostore w5) h6 (native w5) (trace w5 ++ (EvFree <$> a_args))) in *.
  assert (Hfspec : free (Some a_spec) w6 =
                   (Ret tt, MkWorld (gostore w6) (delete a_spec (heap w6)) (native w6)
                              (trace w6 ++ [EvFree a_spec]))).
  { eapply free_live. cbn [heap w6].
    rewrite Hkeep6 by apply spec_not_arg. cbn [heap w5].
    rewrite lookup_delete_ne by apply in_not_spec.
    apply Hkeep, spec_live_3. }
  exists (delete a_spec h6). split.
  - unfold mdsCommand. unfold bind at 1. unfold CString at 1.
    erewrite defer_keep; [|..|exact Hfspec]; [| |exact Ho].
    2:{ unfold bind at 1. rewrite mapM_CString_run.
        cbn [emit set_heap gostore heap native trace].
        eapply defer_keep; [|exact Ho|exact Hfargs].
        unfold bind at 1. unfold CString at 1.
        cbn [emit set_heap gostore heap native trace].
        eapply defer_keep; [|exact Ho|exact Hfin].
        rewrite <- Hcall. f_equal. unfold emit, set_heap.
        cbn [gostore heap native trace]. f_equal.
        unfold marshal_events. rewrite <- !app_assoc. cbn [app].
        by rewrite <- ?app_assoc. }
    f_equal. unfold w6, w5. cbn [gostore heap native trace].
    f_equal. rewrite <- !app_assoc. done.
  - intros q. destruct (decide (q = a_spec)) as [->|Hns].
    { rewrite lookup_delete_eq. rewrite decide_True; [done|by left]. }
    rewrite lookup_delete_ne by done.
    destruct (decide (q ∈ a_args)) as [Hqa|Hqa].
    { rewrite decide_True; [exact (Hgone6 q Hqa)|].
      right. apply elem_of_app. by left. }
    etransitivity; [exact (Hkeep6 q Hqa)|]. cbn [heap w5].
    destruct (decide (q = a_in)) as [->|Hni].
    { rewrite lookup_delete_eq. rewrite decide_True; [done|].
      right. apply elem_of_app. right. by left. }
    rewrite lookup_delete_ne by done. rewrite decide_False; [done|].
    intros [?|[?|?%list_elem_of_singleton]%elem_of_app]%elem_of_cons; done.
Qed.


(** The marshaled addresses were free in the heap the run started from,
    and the marshaling changed nothing else. *)
Lemma marshal_addrs_free (mdsSpec : gostring) (args : list gostring) (h0 : cheap)
    (q : addr) :
  q ∈ spec_addr h0 :: arg_addrs mdsSpec args h0 ++ [in_addr mdsSpec args h0] ->
  h0 !! q = None.
Proof.
  intros [->|[Hq|Hq%list_elem_of_singleton]%elem_of_app]%elem_of_cons.
  - apply fresh_addr_fresh.
  - pose proof (spec_not_arg mdsSpec args h0) as Hns.
    pose proof Hq as Hq'.
    apply alloc_strings_new in Hq' as [Hnone _]. unfold heap1 in Hnone.
    rewrite lookup_insert_ne in Hnone; [done|]. intros Heq. apply Hns.
    by rewrite Heq.
  - subst q. destruct (h0 !! in_addr mdsSpec args h0) as [x|] eqn:E; [|done].
    exfalso.
    assert (H2 : heap2 mdsSpec args h0 !! in_addr mdsSpec args h0 = Some x).
    { apply alloc_strings_keeps. unfold heap1.
      rewrite lookup_insert_ne; [done|]. intros Heq.
      by apply (in_not_spec mdsSpec args h0). }
    pose proof (fresh_addr_fresh (heap2 mdsSpec args h0)) as Hf.
    fold (in_addr mdsSpec args h0) in Hf. congruence.
Qed.

Lemma marshal_heap_other (mdsSpec : gostring) (args : list gostring)
    (input : goslice) (h0 : cheap) (q : addr) :
  q ∉ spec_addr h0 :: arg_addrs mdsSpec args h0 ++ [in_addr mdsSpec args h0] ->
  heap3 mdsSpec args input h0 !! q = h0 !! q.
Proof.
  intros Hq. apply not_elem_of_cons in Hq as [Hs Hq].
  apply not_elem_of_app in Hq as [Ha Hi].
  rewrite list_elem_of_singleton in Hi.
  unfold heap3. rewrite lookup_insert_ne by done.
  unfold heap2. rewrite alloc_strings_other by done.
  unfold heap1. by rewrite lookup_insert_ne.
Qed.

(** X10. [mdsCommand] on a nil handle panics with a nil dereference after
    the marshaling and before the call: the library is not called, the
    blocks freed by the deferred calls are exactly the [N+2] blocks that
    were allocated, each once, and the native heap ends as it started. *)
Theorem mdsCommand_nil_handle (w w' : world NS) (h : positive)
    (mdsSpec : gostring) (args : list gostring) (input : goslice)
    (o : outcome (goslice * gostring * error)) :
  gostore w !! h = None ->
  mdsCommand L h mdsSpec args input w = (o, w') ->
  o = Panic NilDereference /\
  (forall c r ob os, EvMdsCommand c r ob os ∉ new_events w w') /\
  (allocations (new_events w w')).*2 = mdsSpec :: args ++ [string_of_slice input] /\
  NoDup (allocations (new_events w w')).*1 /\
  frees (new_events w w') ≡ₚ (allocations (new_events w w')).*1 /\
  heap w' = heap w /\
  native w' = native w.
Proof.
  intros Hdead Hrun.
  set (w3 := MkWorld (gostore w) (heap3 mdsSpec args input (heap w)) (native w)
               (trace w ++ marshal_events mdsSpec args input (heap w))).
  destruct (mdsCommand_frame w w3 h mdsSpec args input (Panic NilDereference))
    as (hf & Hrun' & Hhf); [| done | done |].
  { unfold mdsCommand_call, bind, load_mount. cbn [gostore]. by rewrite Hdead. }
  rewrite Hrun' in Hrun. injection Hrun as <- <-.
  set (a_spec := spec_addr (heap w)) in *.
  set (a_args := arg_addrs mdsSpec args (heap w)) in *.
  set (a_in := in_addr mdsSpec args (heap w)) in *.
  match goal with |- context [new_events w ?ww] =>
    assert (Hev : new_events w ww
            = marshal_events mdsSpec args input (heap w)
              ++ (EvFree <$> (a_in :: a_args ++ [a_spec])))
  end.
  { apply new_events_app. cbn [trace w3].
    rewrite fmap_cons, fmap_app. by rewrite <- app_assoc. }
  pose proof (arg_addrs_length mdsSpec args (heap w)) as Hlen. fold a_args in Hlen.
  assert (Hal : allocations (marshal_events mdsSpec args input (heap w)
                             ++ (EvFree <$> (a_in :: a_args ++ [a_spec])))
                = (a_spec, mdsSpec) :: zip a_args args
                  ++ [(a_in, string_of_slice input)]).
  { rewrite allocations_app, allocations_marshal.
    rewrite (allocations_quiet (EvFree <$> _)); [by rewrite app_nil_r|].
    apply Forall_fmap, Forall_forall. done. }
  rewrite Hev, Hal. split; [done|]. split; [|split; [|split; [|split; [|split]]]].
  - intros c r ob os [Hin|Hin]%elem_of_app.
    + by apply marshal_not_call in Hin.
    + by apply list_elem_of_fmap in Hin as (? & ? & _).
  - rewrite fmap_cons, fmap_app, snd_zip by lia. done.
  - rewrite fmap_cons, fmap_app, fst_zip by lia. apply marshal_NoDup.
  - rewrite frees_app, frees_marshal, frees_EvFree. cbn [app].
    rewrite fmap_cons, fmap_app, fst_zip by lia. cbn [fmap list_fmap fst].
    rewrite (Permutation_app_comm a_args [a_in]). cbn [app].
    rewrite Permutation_swap. apply perm_skip.
    symmetry. apply Permutation_cons_append.
  - cbn [heap]. apply map_eq. intros q. rewrite Hhf. cbn [heap w3].
    destruct (decide (q ∈ a_spec :: a_args ++ [a_in])) as [Hq|Hq].
    + symmetry. by apply (marshal_addrs_free mdsSpec args).
    + by apply marshal_heap_other.
  - done.
Qed.

End Frame.

Section Buffers.

Context {NS : Type} (L : libcephfs NS).

(** The native heap after a run whose reply honours the contract and
    fits: the heap after the copy-out, less the marshaled blocks. *)
Lemma mdsCommand_good_heap (w w' : world NS) (h : positive)
    (mdsSpec : gostring) (args : list gostring) (input : goslice)
    (o : outcome (goslice * gostring * error))
    (c : mds_call) (r : mds_reply) (ob os : cptr) :
  mdsCommand L h mdsSpec args input w = (o, w') ->
  EvMdsCommand c r ob os ∈ new_events w w' ->
  reply_ok r -> reply_fits r ->
  forall q,
    heap w' !! q =
    if decide (q ∈ spec_addr (heap w) :: arg_addrs mdsSpec args (heap w)
                   ++ [in_addr mdsSpec args (heap w)])
    then None
    else heap_on_copy r (heap3 mdsSpec args input (heap w)) !! q.
Proof.
  intros Hrun Hin (Hret & Hbuf & Hs) [Hfb Hfs].
  pose proof Hin as Hin'.
  replace w' with (mdsCommand L h mdsSpec args input w).2 in Hin' by by rewrite Hrun.
  apply mdsCommand_call_event in Hin' as (m & Hlive & Hargs & -> & Hr & -> & ->).
  set (h3 := heap3 mdsSpec args input (heap w)) in *.
  set (w3 := MkWorld (gostore w) h3 (native w)
               (trace w ++ marshal_events mdsSpec args input (heap w))).
  assert (Hargv : Some <$> arg_addrs mdsSpec args (heap w) <> []).
  { intros Hnil. apply fmap_nil_inv in Hnil.
    apply (f_equal length) in Hnil.
    rewrite arg_addrs_length in Hnil. by destruct args. }
  pose proof (mdsCommand_call_ok L w3 h m (Some (spec_addr (heap w)))
                (Some <$> arg_addrs mdsSpec args (heap w)) (len args)
                (Some (in_addr mdsSpec args (heap w))) (len_slice input)
                Hlive Hargv) as Hcall.
  cbv zeta in Hcall. subst w3. cbn [heap native gostore trace] in Hcall.
  unfold reply_at, call_at in Hr. fold h3 in Hr.
  rewrite <- Hr in Hcall.
  specialize (Hcall (holds_fetchable _ _ Hs Hfs) (holds_fetchable _ _ Hbuf Hfb)).
  destruct (mdsCommand_frame L w _ h mdsSpec args input _ Hcall)
    as (hf & Hrun' & Hhf); [done| |].
  { intros q x Hq. cbn [heap]. by apply heap_on_copy_keeps. }
  rewrite Hrun' in Hrun. injection Hrun as _ <-. exact Hhf.
Qed.

Lemma delete_fresh (h : cheap) (b : list byte) :
  delete (fresh_addr h) (<[fresh_addr h := b]> h) = h.
Proof. apply delete_insert_id, fresh_addr_fresh. Qed.

(** Output buffers that are null or have a positive reported length are
    all freed by the copy-out. *)
Lemma heap_on_copy_id (r : mds_reply) (h : cheap) :
  (r_outbuf r = None \/ 0 < r_outbuflen r) ->
  (r_outs r = None \/ 0 < r_outslen r) ->
  heap_on_copy r h = h.
Proof.
  intros Hb Hs. unfold heap_on_copy, heap_on_return, outbuf_ptr, outs_ptr.
  destruct (r_outbuf r) as [bb|] eqn:Eb; destruct (r_outs r) as [bs|] eqn:Es;
    cbn [callee_alloc fst snd fetch_heap].
  - destruct Hb as [?|Hb]; [done|]. destruct Hs as [?|Hs]; [done|].
    unfold fetch_heap.
    destruct (Z.ltb_spec 0 (r_outslen r)); [|lia].
    destruct (Z.ltb_spec 0 (r_outbuflen r)); [|lia].
    by rewrite !delete_fresh.
  - destruct Hb as [?|Hb]; [done|]. unfold fetch_heap.
    destruct (Z.ltb_spec 0 (r_outbuflen r)); [|lia].
    unfold NULL. destruct (0 <? r_outslen r); by rewrite delete_fresh.
  - destruct Hs as [?|Hs]; [done|]. unfold fetch_heap.
    destruct (Z.ltb_spec 0 (r_outslen r)); [|lia].
    unfold NULL. rewrite delete_fresh. by destruct (0 <? r_outbuflen r).
  - unfold fetch_heap, NULL. by destruct (0 <? r_outbuflen r), (0 <? r_outslen r).
Qed.

(** X11. When the reply honours the contract of the call and fits a C
    int, and each output buffer is either null or reported with a positive
    length, [mdsCommand] leaves the native heap exactly as it found it,
    whatever the result of the call: the marshaled blocks and the
    library's output buffers are all freed and nothing else is touched. *)
Theorem mdsCommand_restores_heap (w w' : world NS) (h : positive)
    (mdsSpec : gostring) (args : list gostring) (input : goslice)
    (o : outcome (goslice * gostring * error))
    (c : mds_call) (r : mds_reply) (ob os : cptr) :
  mdsCommand L h mdsSpec args input w = (o, w') ->
  EvMdsCommand c r ob os ∈ new_events w w' ->
  reply_ok r -> reply_fits r ->
  (r_outbuf r = None \/ 0 < r_outbuflen r) ->
  (r_outs r = None \/ 0 < r_outslen r) ->
  heap w' = heap w.
Proof.
  intros Hrun Hin Hok Hfits Hb Hs. apply map_eq. intros q.
  rewrite (mdsCommand_good_heap w w' h mdsSpec args input o c r ob os Hrun Hin Hok Hfits).
  rewrite heap_on_copy_id by done.
  destruct (decide _) as [Hq|Hq].
  - symmetry. by apply (marshal_addrs_free mdsSpec args).
  - by apply marshal_heap_other.
Qed.

(** X12. An output buffer that the library allocated but reported with
    length zero is never freed: its block is still on the native heap
    when [mdsCommand] returns.  This holds for the output buffer and for
    the status string. *)
Theorem mdsCommand_leaks_empty_buffer (w w' : world NS) (h : positive)
    (mdsSpec : gostring) (args : list gostring) (input : goslice)
    (o : outcome (goslice * gostring * error))
    (c : mds_call) (r : mds_reply) (ob os : cptr) :
  mdsCommand L h mdsSpec args input w = (o, w') ->
  EvMdsCommand c r ob os ∈ new_events w w' ->
  reply_ok r -> reply_fits r ->
  (forall blk, r_outbuf r = Some blk -> r_outbuflen r = 0 ->
     exists a, ob = Some a /\ heap w !! a = None /\ heap w' !! a = Some blk /\
               a ∉ frees (new_events w w')) /\
  (forall blk, r_outs r = Some blk -> r_outslen r = 0 ->
     exists a, os = Some a /\ heap w !! a = None /\ heap w' !! a = Some blk /\
               a ∉ frees (new_events w w')).
Proof.
  intros Hrun Hin Hok Hfits.
  pose proof (mdsCommand_good_heap w w' h mdsSpec args input o c r ob os
                Hrun Hin Hok Hfits) as Hheap.
  destruct (mdsCommand_good_run L w w' h mdsSpec args input o c r ob os
              Hrun Hin Hok Hfits) as (m & Hlive & Hargs & -> & -> & -> & -> & Hevs).
  set (h3 := heap3 mdsSpec args input (heap w)) in *.
  set (T := spec_addr (heap w) :: arg_addrs mdsSpec args (heap w)
            ++ [in_addr mdsSpec args (heap w)]) in *.
  assert (HT : forall q, q ∈ T -> is_Some (h3 !! q)).
  { intros q [->|[Hq|Hq%list_elem_of_singleton]%elem_of_app]%elem_of_cons.
    - eexists. apply spec_live_3.
    - by apply args_live_3.
    - subst q. eexists. apply in_live_3. }
  assert (Hfresh : forall a, h3 !! a = None -> (a ∉ T) /\ heap w !! a = None).
  { intros a Ha. assert (a ∉ T) as HaT.
    { intros [x Hx]%HT.
      assert (Some x = None) by (etransitivity; [symmetry; exact Hx|exact Ha]).
      done. }
    split; [done|]. by rewrite <- (marshal_heap_other mdsSpec args input). }
  assert (Hfrees : forall a, a ∉ T -> a ∈ frees (new_events w w') ->
            (outs_ptr r h3 = Some a /\ 0 < r_outslen r) \/
            (outbuf_ptr r h3 = Some a /\ 0 < r_outbuflen r)).
  { intros a HaT. rewrite Hevs. unfold run_events.
    rewrite frees_app, frees_marshal. cbn [app].
    change (frees (EvMdsCommand ?x ?y ?z ?u :: ?l)) with (frees l).
    rewrite frees_app. intros [Hf|Hf]%elem_of_app.
    - unfold copy_events in Hf. rewrite frees_app in Hf.
      apply elem_of_app in Hf as [Hf|Hf].
      + left. pose proof Hf as Hf'. apply frees_fetch_events in Hf'; [|done].
        split; [done|]. unfold fetch_events in Hf.
        destruct (Z.ltb_spec 0 (r_outslen r)); [done|]. by apply elem_of_nil in Hf.
      + right. pose proof Hf as Hf'. apply frees_fetch_events in Hf'; [|done].
        split; [done|]. unfold fetch_events in Hf.
        destruct (Z.ltb_spec 0 (r_outbuflen r)); [done|]. by apply elem_of_nil in Hf.
    - exfalso. apply HaT.
      change (EvFree ?x :: (EvFree <$> ?l) ++ [EvFree ?y]) with
        ((EvFree <$> [x]) ++ (EvFree <$> l) ++ (EvFree <$> [y])) in Hf.
      rewrite <- !fmap_app, frees_EvFree in Hf.
      apply elem_of_app in Hf as [Hf%list_elem_of_singleton|Hf].
      + subst a. right. apply elem_of_app. right. by left.
      + apply elem_of_app in Hf as [Hf|Hf%list_elem_of_singleton].
        * right. apply elem_of_app. by left.
        * subst a. by left. }
  split.
  - intros blk Eb Hz.
    assert (Hob : outbuf_ptr r h3 = Some (fresh_addr h3)).
    { unfold outbuf_ptr. by rewrite Eb. }
    exists (fresh_addr h3). split; [done|].
    destruct (Hfresh _ (fresh_addr_fresh h3)) as [HaT Hw].
    split; [done|]. split.
    + rewrite Hheap, decide_False by done.
      unfold heap_on_copy. rewrite Hob, Hz.
      unfold fetch_heap at 1. cbn [Z.ltb Z.compare].
      assert (Hret5 : heap_on_return r h3 !! fresh_addr h3 = Some blk).
      { unfold heap_on_return. apply callee_alloc_keeps.
        rewrite Eb. cbn. apply lookup_insert_eq. }
      rewrite fetch_heap_keeps; [done|].
      intros Hos. unfold outs_ptr in Hos.
      apply callee_alloc_some in Hos as (? & _ & Hnone & _).
      rewrite Eb in Hnone. cbn in Hnone. by rewrite lookup_insert_eq in Hnone.
    + intros Hf. destruct (Hfrees _ HaT Hf) as [[Hos _]|[_ ?]]; [|lia].
      unfold outs_ptr in Hos.
      apply callee_alloc_some in Hos as (? & _ & Hnone & _).
      rewrite Eb in Hnone. cbn in Hnone. by rewrite lookup_insert_eq in Hnone.
  - intros blk Es Hz.
    set (h4 := (callee_alloc (r_outbuf r) h3).2).
    assert (Hos : outs_ptr r h3 = Some (fresh_addr h4)).
    { unfold outs_ptr. fold h4. by rewrite Es. }
    exists (fresh_addr h4). split; [done|].
    assert (H3 : h3 !! fresh_addr h4 = None).
    { destruct (h3 !! fresh_addr h4) as [x|] eqn:E; [|done].
      apply (callee_alloc_keeps (r_outbuf r)) in E. fold h4 in E.
      by rewrite fresh_addr_fresh in E. }
    destruct (Hfresh _ H3) as [HaT Hw].
    split; [done|]. split.
    + rewrite Hheap, decide_False by done.
      unfold heap_on_copy. rewrite Hos, Hz.
      unfold fetch_heap at 2. cbn [Z.ltb Z.compare].
      assert (Hret5 : heap_on_return r h3 !! fresh_addr h4 = Some blk).
      { unfold heap_on_return. fold h4. rewrite Es. cbn. apply lookup_insert_eq. }
      rewrite fetch_heap_keeps; [done|].
      intros Hob. unfold outbuf_ptr in Hob.
      apply callee_alloc_some in Hob as (? & _ & _ & Hlive4). fold h4 in Hlive4.
      by rewrite fresh_addr_fresh in Hlive4.
    + intros Hf. destruct (Hfrees _ HaT Hf) as [[_ ?]|[Hob _]]; [lia|].
      unfold outbuf_ptr in Hob.
      apply callee_alloc_some in Hob as (? & _ & _ & Hlive4). fold h4 in Hlive4.
      by rewrite fresh_addr_fresh in Hlive4.
Qed.

End Buffers.

Section Success.

Context {NS : Type} (L : libcephfs NS).

(** X13. When the call succeeds (result 0) and reports a positive
    output-buffer length, the reply honouring the contract of the call
    and fitting a C int, [mdsCommand] returns the first [outbuflen] bytes
    of the native output buffer as a non-nil payload, together with a nil
    error; the bytes are read from the buffer before the buffer is
    freed, and the free follows the read at once. *)
Theorem mdsCommand_success_payload (w w' : world NS) (h : positive)
    (mdsSpec : gostring) (args : list gostring) (input : goslice)
    (o : outcome (goslice * gostring * error))
    (c : mds_call) (r : mds_reply) (ob os : cptr) :
  mdsCommand L h mdsSpec args input w = (o, w') ->
  EvMdsCommand c r ob os ∈ new_events w w' ->
  reply_ok r -> reply_fits r ->
  r_ret r = 0 ->
  0 < r_outbuflen r ->
  exists blk a info pre post,
    r_outbuf r = Some blk /\ ob = Some a /\
    o = Ret (Some (take (Z.to_nat (r_outbuflen r)) blk), info, None) /\
    len (take (Z.to_nat (r_outbuflen r)) blk) = r_outbuflen r /\
    new_events w w' =
      pre ++ EvGoBytes (Some a) (r_outbuflen r) :: EvFree a :: post /\
    a ∉ frees pre.
Proof.
  intros Hrun Hin Hok Hfits Hzero Hpos.
  destruct (mdsCommand_good_run L w w' h mdsSpec args input o c r ob os
              Hrun Hin Hok Hfits) as (m & _ & _ & -> & -> & -> & -> & Hevs).
  destruct Hok as (_ & [Hb0 Hb] & _). destruct Hfits as [Hfb _].
  specialize (Hb Hpos).
  destruct (r_outbuf r) as [blk|] eqn:Ebuf; [|done].
  set (h3 := heap3 mdsSpec args input (heap w)) in *.
  assert (Hid : to_cint (r_outbuflen r) = r_outbuflen r).
  { apply to_cint_id. unfold is_cint, INT_MIN, INT_MAX in *. lia. }
  assert (Hob : outbuf_ptr r h3 = Some (fresh_addr h3)).
  { unfold outbuf_ptr. by rewrite Ebuf. }
  exists blk, (fresh_addr h3), (fetched (r_outs r) (r_outslen r)).
  exists (marshal_events mdsSpec args input (heap w)
          ++ EvMdsCommand (call_at m mdsSpec args input (heap w)) r
               (outbuf_ptr r h3) (outs_ptr r h3)
             :: fetch_events EvGoStringN (outs_ptr r h3) (r_outslen r)).
  eexists. split; [done|]. split; [done|]. split; [|split; [|split]].
  - f_equal. unfold result_of, payload. rewrite Hzero, Ebuf. cbn [Z.eqb negb].
    destruct (Z.ltb_spec 0 (r_outbuflen r)) as [_|?]; [|lia].
    by rewrite Hid.
  - unfold len. rewrite length_take. unfold len in Hb. lia.
  - rewrite Hevs. unfold run_events. fold h3.
    rewrite <- app_assoc. cbn [app]. do 2 f_equal.
    unfold copy_events. rewrite <- app_assoc. f_equal.
    unfold fetch_events at 1.
    destruct (Z.ltb_spec 0 (r_outbuflen r)) as [_|?]; [|lia].
    rewrite Hid. destruct (Z.eqb_spec (r_outbuflen r) 0) as [?|_]; [lia|].
    rewrite Hob. cbn [app]. reflexivity.
  - rewrite frees_app, frees_marshal. cbn [app].
    change (frees (EvMdsCommand ?x ?y ?z ?u :: ?l)) with (frees l).
    intros Hf. apply frees_fetch_events in Hf; [|done].
    unfold outs_ptr in Hf.
    apply callee_alloc_some in Hf as (? & _ & Hnone & _).
    rewrite Ebuf in Hnone. cbn in Hnone. by rewrite lookup_insert_eq in Hnone.
Qed.

(** X14. What [mdsCommand] passes to [ceph_mds_command]: the mount
    reference stored in the handle, the [C.CString] copy of the target
    spec, an array with one pointer per argument, the i-th being the
    [C.CString] copy of the i-th argument, the number of arguments, and
    the [C.CString] copy of the input buffer.  These copies are all the
    allocations of the run, in this order. *)
Theorem mdsCommand_call_arguments (w w' : world NS) (h : positive)
    (mdsSpec : gostring) (args : list gostring) (input : goslice)
    (o : outcome (goslice * gostring * error))
    (c : mds_call) (r : mds_reply) (ob os : cptr) :
  len args <= GO_INT_MAX ->
  mdsCommand L h mdsSpec args input w = (o, w') ->
  EvMdsCommand c r ob os ∈ new_events w w' ->
  gostore w !! h = Some (MkMountInfo (c_cmount c)) /\
  c_cmdlen c = Z.of_nat (length args) /\
  exists a_spec a_args a_in,
    c_spec c = Some a_spec /\
    c_cmd c = Some <$> a_args /\
    c_inbuf c = Some a_in /\
    length a_args = length args /\
    allocations (new_events w w') =
      (a_spec, mdsSpec) :: zip a_args args ++ [(a_in, string_of_slice input)].
Proof.
  intros Hlen Hrun Hin.
  replace w' with (mdsCommand L h mdsSpec args input w).2 in * by by rewrite Hrun.
  pose proof Hin as Hin'.
  apply mdsCommand_call_event in Hin' as (m & Hlive & Hargs & -> & _ & _ & _).
  split; [by destruct m|]. split.
  { cbn [call_at c_cmdlen]. apply to_size_t_id.
    unfold is_size_t, SIZE_MAX, GO_INT_MAX, len in *. lia. }
  exists (spec_addr (heap w)), (arg_addrs mdsSpec args (heap w)),
         (in_addr mdsSpec args (heap w)).
  do 3 (split; [done|]). split; [apply arg_addrs_length|].
  destruct (mdsCommand_reaches_call L w h m mdsSpec args input Hlive Hargs)
    as (post & tail & -> & Hpost & Htail).
  rewrite allocations_app, allocations_marshal.
  change (allocations (EvMdsCommand ?x ?y ?z ?u :: ?l)) with (allocations l).
  rewrite allocations_app.
  rewrite (allocations_quiet post), (allocations_quiet tail).
  - by rewrite !app_nil_r.
  - eapply Forall_impl; [exact Htail|]. apply copy_event_quiet.
  - eapply Forall_impl; [exact Hpost|]. apply copy_event_quiet.
Qed.

End Success.

(** ** A handle from creation to mounting *)

Section Compose.

Context {NS : Type} (K : libcephfs_fs NS) (L : libcephfs NS).

(** X15. A handle that [createMount] or [CreateFromRados] returned without
    an error holds the context the library stored at creation: [Mount] on
    it calls [ceph_mount] once, on that context and with a null root. *)
Theorem create_then_Mount (w w1 w2 : world NS) (c : creator) (l : positive)
    (o2 : outcome error) :
  run_create K c w = (Ret (Some l, None), w1) ->
  Mount L l w1 = (o2, w2) ->
  let rcs := create_call K c (heap w) (native w) in
  rcs.1.1 = 0 /\
  new_events w1 w2 = [EvMount rcs.1.2 NULL] /\
  o2 = Ret (getError (ceph_mount L rcs.1.2 NULL (heap w) rcs.2).1).
Proof.
  intros Hrun1 Hrun2. rewrite run_create_run in Hrun1. cbv zeta in *.
  destruct (Z.eqb_spec (create_call K c (heap w) (native w)).1.1 0) as [Hz|Hnz];
    cbn [negb] in Hrun1; [|done].
  injection Hrun1 as <- <-.
  rewrite Mount_run in Hrun2. cbn [gostore heap native trace] in Hrun2.
  rewrite lookup_insert_eq in Hrun2. cbv zeta in Hrun2. cbn [mount] in Hrun2.
  injection Hrun2 as <- <-.
  split; [done|]. split; [|done]. by apply new_events_app.
Qed.

End Compose.

(** * The rest of the binding on the test double *)

Lemma fake_fs_reads_c_string (r : Z) (cm : cptr) (cwd : libmem) (op : path_op) :
  reads_c_string (fake_fs r cm cwd) op.
Proof.
  intros cm' p p' hp hp' s Heq.
  destruct op; cbn [path_call fake_fs ceph_chdir ceph_mkdir ceph_rmdir ceph_chmod
                    ceph_chown]; unfold path_answer; by rewrite Heq.
Qed.

Lemma ok_reply_ok : reply_ok ok_reply /\ reply_fits ok_reply.
Proof.
  unfold reply_ok, reply_fits, holds, is_cint, INT_MIN, INT_MAX, len. cbn.
  repeat split; lia.
Qed.

Lemma leaky_reply_ok : reply_ok leaky_reply /\ reply_fits leaky_reply.
Proof.
  unfold reply_ok, reply_fits, holds, is_cint, INT_MIN, INT_MAX, len. cbn.
  repeat split; lia.
Qed.

Lemma ok_run_call :
  EvMdsCommand status_call ok_reply (Some 5%positive) None
  ∈ new_events fake_world
      (mdsCommand (fake_lib 0 1 ok_reply) 1%positive (bytes "mds.0")
         [bytes "status"] None fake_world).2.
Proof. apply list_elem_of_In. vm_compute. do 3 right. left. reflexivity. Qed.

Lemma leaky_run_call :
  EvMdsCommand status_call leaky_reply (Some 5%positive) None
  ∈ new_events fake_world
      (mdsCommand (fake_lib 0 1 leaky_reply) 1%positive (bytes "mds.0")
         [bytes "status"] None fake_world).2.
Proof. apply list_elem_of_In. vm_compute. do 3 right. left. reflexivity. Qed.

Lemma path_op_frees_path_witness :
  let K := fake_fs 0 None None in
  let run := run_path_op K 1%positive (bytes "/a") (OpMakeDir 493) fake_world in
  let p := fresh_addr (heap fake_world) in
  let rs := path_call K (OpMakeDir 493) (Some 7%positive) (Some p)
              (<[p := bytes "/a" ++ [x00]]> (heap fake_world)) (native fake_world) in
  heap fake_world !! p = None /\
  run.1 = Ret (getError rs.1) /\
  native run.2 = rs.2 /\
  new_events fake_world run.2 = [EvCString p (bytes "/a"); EvFree p] /\
  heap run.2 = heap fake_world /\
  gostore run.2 = gostore fake_world.
Proof.
  intros K run.
  refine (path_op_frees_path K fake_world _ 1%positive (MkMountInfo (Some 7%positive))
            (bytes "/a") (OpMakeDir 493) _ _ _).
  - reflexivity.
  - apply surjective_pairing.
Defined.

Lemma path_op_nil_handle_witness :
  let run := run_path_op (fake_fs 0 None None) 2%positive (bytes "/a") OpRemoveDir
               fake_world in
  run.1 = Panic NilDereference /\
  new_events fake_world run.2
  = [EvCString (fresh_addr (heap fake_world)) (bytes "/a");
     EvFree (fresh_addr (heap fake_world))] /\
  heap run.2 = heap fake_world /\
  native run.2 = native fake_world /\
  gostore run.2 = gostore fake_world.
Proof.
  intros run.
  refine (path_op_nil_handle (fake_fs 0 None None) fake_world _ 2%positive
            (bytes "/a") OpRemoveDir _ _ _).
  - reflexivity.
  - apply surjective_pairing.
Defined.

Lemma Chown_ids_as_C_ints_witness :
  let run := Chown chown_log_fs 1%positive (bytes "/a") 4294967295 1000 chown_world in
  run.1 = Ret (getError 0) /\ native run.2 = [(-1, 1000)].
Proof.
  intros run.
  refine (Chown_ids_as_C_ints chown_log_fs chown_world _ 1%positive
            (MkMountInfo (Some 7%positive)) (bytes "/a") 4294967295 1000 _ _ _ _ _).
  - unfold is_uint32, UINT32_MAX. lia.
  - unfold is_uint32, UINT32_MAX. lia.
  - reflexivity.
  - apply surjective_pairing.
Defined.

Lemma path_op_cuts_at_zero_byte_witness :
  let run := run_path_op (fake_fs 0 None None) 1%positive [x61; x00; x62] OpChangeDir
               fake_world in
  run.1 = Ret (getError (-1)) /\ native run.2 = tt.
Proof.
  intros run.
  refine (path_op_cuts_at_zero_byte (fake_fs 0 None None) fake_world _ 1%positive
            (MkMountInfo (Some 7%positive)) [x61; x00; x62] [x61] OpChangeDir _
            _ _ _ _ (Some 9%positive) {[ 9%positive := [x61; x00] ]} _).
  - reflexivity.
  - apply fake_fs_reads_c_string.
  - split; [|right; by exists [x62]].
    apply not_elem_of_cons. split; [done|apply not_elem_of_nil].
  - apply surjective_pairing.
  - reflexivity.
Defined.

Lemma create_result_witness :
  let K := fake_fs 0 (Some 9%positive) None in
  let run := run_create K (ByCreate NULL) fake_world in
  let l := fresh_loc (gostore fake_world) in
  let rcs := create_call K (ByCreate NULL) (heap fake_world) (native fake_world) in
  gostore fake_world !! l = None /\
  (rcs.1.1 <> 0 -> exists e, run.1 = Ret (None, Some e) /\ getError rcs.1.1 = Some e) /\
  (rcs.1.1 = 0 ->
   run.1 = Ret (Some l, None) /\ gostore run.2 !! l = Some (MkMountInfo rcs.1.2)) /\
  (forall h m, gostore fake_world !! h = Some m -> gostore run.2 !! h = Some m) /\
  heap run.2 = heap fake_world /\
  native run.2 = rcs.2 /\
  trace run.2 = trace fake_world.
Proof.
  intros K run.
  refine (create_result K fake_world _ (ByCreate NULL) _ _).
  apply surjective_pairing.
Defined.

Lemma CreateMountWithId_frees_id_witness :
  let K := fake_fs (-13) NULL None in
  let run := CreateMountWithId K (bytes "admin") fake_world in
  let p := fresh_addr (heap fake_world) in
  let l := fresh_loc (gostore fake_world) in
  let rcs := ceph_create K (Some p) (<[p := bytes "admin" ++ [x00]]> (heap fake_world))
               (native fake_world) in
  (rcs.1.1 <> 0 -> run.1 = Ret (None, getError rcs.1.1)) /\
  (rcs.1.1 = 0 ->
   run.1 = Ret (Some l, None) /\ gostore run.2 !! l = Some (MkMountInfo rcs.1.2)) /\
  new_events fake_world run.2 = [EvCString p (bytes "admin"); EvFree p] /\
  heap run.2 = heap fake_world /\
  native run.2 = rcs.2.
Proof.
  intros K run.
  refine (CreateMountWithId_frees_id K fake_world _ (bytes "admin") _ _).
  apply surjective_pairing.
Defined.

Lemma CurrentDir_result_witness :
  let K := fake_fs 0 None (Some cwd_block) in
  let run := CurrentDir K 1%positive fake_world in
  (x00 ∈ cwd_block ->
   exists s rest, run.1 = Ret s /\ cwd_block = s ++ x00 :: rest /\ x00 ∉ s) /\
  native run.2 = tt /\
  heap run.2 = heap fake_world /\
  gostore run.2 = gostore fake_world /\
  trace run.2 = trace fake_world.
Proof.
  intros K run.
  refine (CurrentDir_result K fake_world _ 1%positive (MkMountInfo (Some 7%positive))
            _ _ _).
  - reflexivity.
  - apply surjective_pairing.
Defined.

Lemma life_op_result_witness :
  let K := fake_fs (-2) None None in
  let run := run_life_op K 1%positive OpRelease fake_world in
  (run.1 = Ret (getError (-2)) /\ (run.1 = Ret None <-> -2 = 0) /\ native run.2 = tt) /\
  gostore run.2 = gostore fake_world /\
  heap run.2 = heap fake_world /\
  trace run.2 = trace fake_world.
Proof.
  intros K run.
  refine (life_op_result K fake_world _ 1%positive OpRelease _ _).
  apply surjective_pairing.
Defined.

Lemma life_op_then_Mount_witness :
  let K := fake_fs 0 None None in
  let L := fake_lib (-2) 0 ok_reply in
  let run1 := run_life_op K 1%positive OpRelease fake_world in
  let run2 := Mount L 1%positive run1.2 in
  gostore run1.2 !! 1%positive = Some (MkMountInfo (Some 7%positive)) /\
  new_events run1.2 run2.2 = [EvMount (Some 7%positive) NULL] /\
  run2.1 = Ret (getError (-2)).
Proof.
  intros K L run1 run2.
  refine (life_op_then_Mount K L fake_world _ _ 1%positive
            (MkMountInfo (Some 7%positive)) OpRelease _ _ _ _ _).
  - reflexivity.
  - apply surjective_pairing.
  - apply surjective_pairing.
Defined.

Lemma mdsCommand_nil_handle_witness :
  let run := mdsCommand (fake_lib 0 1 ok_reply) 2%positive (bytes "mds.0")
               [bytes "status"] None fake_world in
  run.1 = Panic NilDereference /\
  (forall c r ob os, EvMdsCommand c r ob os ∉ new_events fake_world run.2) /\
  (allocations (new_events fake_world run.2)).*2
  = bytes "mds.0" :: [bytes "status"] ++ [string_of_slice None] /\
  NoDup (allocations (new_events fake_world run.2)).*1 /\
  frees (new_events fake_world run.2)
  ≡ₚ (allocations (new_events fake_world run.2)).*1 /\
  heap run.2 = heap fake_world /\
  native run.2 = native fake_world.
Proof.
  intros run.
  refine (mdsCommand_nil_handle (fake_lib 0 1 ok_reply) fake_world _ 2%positive
            (bytes "mds.0") [bytes "status"] None _ _ _).
  - reflexivity.
  - apply surjective_pairing.
Defined.

Lemma mdsCommand_restores_heap_witness :
  heap (mdsCommand (fake_lib 0 1 err_reply) 1%positive (bytes "mds.0")
          [bytes "a"; bytes "b"] (Some (bytes "x")) fake_world).2
  = heap fake_world.
Proof.
  refine (mdsCommand_restores_heap (fake_lib 0 1 err_reply) fake_world _ 1%positive
            (bytes "mds.0") [bytes "a"; bytes "b"] (Some (bytes "x")) _
            err_call err_reply None (Some 6%positive) _ _ _ _ _ _).
  - apply surjective_pairing.
  - exact err_run_call.
  - exact (proj1 err_reply_ok).
  - exact (proj2 err_reply_ok).
  - by left.
  - right. simpl. lia.
Defined.

Lemma mdsCommand_leaks_empty_buffer_witness :
  let run := mdsCommand (fake_lib 0 1 leaky_reply) 1%positive (bytes "mds.0")
               [bytes "status"] None fake_world in
  (forall blk, r_outbuf leaky_reply = Some blk -> r_outbuflen leaky_reply = 0 ->
     exists a, Some 5%positive = Some a /\ heap fake_world !! a = None /\
               heap run.2 !! a = Some blk /\
               a ∉ frees (new_events fake_world run.2)) /\
  (forall blk, r_outs leaky_reply = Some blk -> r_outslen leaky_reply = 0 ->
     exists a, None = Some a /\ heap fake_world !! a = None /\
               heap run.2 !! a = Some blk /\
               a ∉ frees (new_events fake_world run.2)).
Proof.
  intros run.
  refine (mdsCommand_leaks_empty_buffer (fake_lib 0 1 leaky_reply) fake_world _
            1%positive (bytes "mds.0") [bytes "status"] None _
            status_call leaky_reply (Some 5%positive) None _ _ _ _).
  - apply surjective_pairing.
  - exact leaky_run_call.
  - exact (proj1 leaky_reply_ok).
  - exact (proj2 leaky_reply_ok).
Defined.

Lemma mdsCommand_success_payload_witness :
  let run := mdsCommand (fake_lib 0 1 ok_reply) 1%positive (bytes "mds.0")
               [bytes "status"] None fake_world in
  exists blk a info pre post,
    r_outbuf ok_reply = Some blk /\ Some 5%positive = Some a /\
    run.1 = Ret (Some (take (Z.to_nat (r_outbuflen ok_reply)) blk), info, None) /\
    len (take (Z.to_nat (r_outbuflen ok_reply)) blk) = r_outbuflen ok_reply /\
    new_events fake_world run.2 =
      pre ++ EvGoBytes (Some a) (r_outbuflen ok_reply) :: EvFree a :: post /\
    a ∉ frees pre.
Proof.
  intros run.
  refine (mdsCommand_success_payload (fake_lib 0 1 ok_reply) fake_world _ 1%positive
            (bytes "mds.0") [bytes "status"] None _
            status_call ok_reply (Some 5%positive) None _ _ _ _ _ _).
  - apply surjective_pairing.
  - exact ok_run_call.
  - exact (proj1 ok_reply_ok).
  - exact (proj2 ok_reply_ok).
  - reflexivity.
  - simpl. lia.
Defined.

Lemma mdsCommand_call_arguments_witness :
  let run := mdsCommand (fake_lib 0 1 ok_reply) 1%positive (bytes "mds.0")
               [bytes "status"] None fake_world in
  gostore fake_world !! 1%positive = Some (MkMountInfo (c_cmount status_call)) /\
  c_cmdlen status_call = 1 /\
  exists a_spec a_args a_in,
    c_spec status_call = Some a_spec /\
    c_cmd status_call = Some <$> a_args /\
    c_inbuf status_call = Some a_in /\
    length a_args = 1%nat /\
    allocations (new_events fake_world run.2) =
      (a_spec, bytes "mds.0") :: zip a_args [bytes "status"] ++ [(a_in, [])].
Proof.
  intros run.
  refine (mdsCommand_call_arguments (fake_lib 0 1 ok_reply) fake_world _ 1%positive
            (bytes "mds.0") [bytes "status"] None _
            status_call ok_reply (Some 5%positive) None _ _ _).
  - unfold GO_INT_MAX. vm_compute. discriminate.
  - apply surjective_pairing.
  - exact ok_run_call.
Defined.

Lemma create_then_Mount_witness :
  let K := fake_fs 0 (Some 9%positive) None in
  let L := fake_lib (-2) 0 ok_reply in
  let run1 := run_create K (ByRados (Some 3%positive)) fake_world in
  let run2 := Mount L (fresh_loc (gostore fake_world)) run1.2 in
  (create_call K (ByRados (Some 3%positive)) (heap fake_world) (native fake_world)).1.1
  = 0 /\
  new_events run1.2 run2.2 = [EvMount (Some 9%positive) NULL] /\
  run2.1 = Ret (getError (-2)).
Proof.
  intros K L run1 run2.
  refine (create_then_Mount K L fake_world _ _ (ByRados (Some 3%positive))
            (fresh_loc (gostore fake_world)) _ _ _).
  - vm_compute. reflexivity.
  - apply surjective_pairing.
Defined.
